(** * Symbol interning and attribute records of the Nix expression evaluator

    A shallow embedding of [src/libexpr/symbol-table.hh] and
    [src/libexpr/attr-set.cc], followed by the properties the specification
    states about them.

    Conventions.
    - [uint32_t] values are integers in [Z]; every arithmetic result that the
      C++ code stores in a [uint32_t] goes through [u32], which writes out
      the wrap-around modulo 2^32.
    - Member functions that mutate their object take the object and return
      the result together with the new object.
    - [abort()] and [throw] are the outcomes [Aborts] and [Throws]. *)

From Stdlib Require Import ZArith String List Lia.
From stdpp Require Import base option list gmap strings sorting.

Local Open Scope Z_scope.

(** ** Fixed-width integers *)

Definition u32_modulus : Z := 2 ^ 32.
Definition u32_max : Z := u32_modulus - 1.

(** Conversion of an integer to [uint32_t]. *)
Definition u32 (z : Z) : Z := z mod u32_modulus.

(** ** Outcomes of a call *)

(** [Error("attribute set of size %d is too big", capacity)]: the format
    string and its argument. *)
Record Error := mkError { err_fmt : string; err_arg : Z }.

Inductive outcome (A : Type) : Type :=
| Returns (a : A)
| Throws (e : Error)
| Aborts.
Arguments Returns {A} a.
Arguments Throws {A} e.
Arguments Aborts {A}.

(** ** The backing store *)

Module ChunkedVector.

(** The address of an element: the chunk that holds it and its place
    there. *)
Record ptr := mkPtr { chunk : nat; offset : nat }.

Section Defs.
Context {T : Type}.
(** The second template argument. *)
Variable ChunkSize : nat.

(** Modelled from the spec: [chunked-vector.hh] is not part of the
    sources at hand.  The backing store is "an append-only,
    stable-address sequence of owned strings, partitioned into
    fixed-size chunks so that growth never invalidates previously
    returned addresses": a list of chunks, each a list of at most
    [ChunkSize] elements, of which only the last one grows. *)
Record t := mk { chunks : list (list T) }.

(** Modelled from the spec: the constructor [ChunkedVector(reserve)] of
    the absent [chunked-vector.hh]; no element yet, [reserve] only sizes
    the list of chunks in advance. *)
Definition make (reserve : nat) : t := mk [].

(** Modelled from the spec: [size()] of the absent [chunked-vector.hh],
    the number of elements of the sequence. *)
Definition size (v : t) : nat := length (concat (chunks v)).

(** Modelled from the spec: [add(value)] of the absent
    [chunked-vector.hh]; appends [value] and returns its address together
    with its index, the number of elements stored before the call.  The
    last chunk takes the element when it has room; otherwise a new chunk
    is started, so that no stored element moves. *)
Definition add (value : T) (v : t) : (ptr * nat) * t :=
  let idx := size v in
  match last (chunks v) with
  | Some back =>
      if (length back <? ChunkSize)%nat
      then let n := length (chunks v) in
           ((mkPtr (n - 1) (length back), idx),
            mk (take (n - 1) (chunks v) ++ [back ++ [value]]))
      else ((mkPtr (length (chunks v)) 0, idx),
            mk (chunks v ++ [[value]]))
  | None => ((mkPtr 0 0, idx), mk [[value]])
  end.

(** Modelled from the spec: [operator[](idx)] of the absent
    [chunked-vector.hh]; the address of the element of index [idx] in a
    sequence cut into chunks of [ChunkSize]. *)
Definition index (idx : nat) : ptr :=
  mkPtr (idx / ChunkSize) (idx mod ChunkSize).

(** Reading through an address; [None] where nothing is stored. *)
Definition deref (v : t) (p : ptr) : option T :=
  c ← chunks v !! chunk p; c !! offset p.

(** Modelled from the spec: [forEach(fn)] of the absent
    [chunked-vector.hh]; the elements in the order [fn] receives them,
    "each interned entry once, in insertion order". *)
Definition forEach (v : t) : list T := concat (chunks v).

(** The shape [add] maintains: no chunk exceeds [ChunkSize], and every
    chunk but the last is full. *)
Definition wf (v : t) : Prop :=
  ∀ i c, chunks v !! i = Some c →
    (length c ≤ ChunkSize)%nat ∧
    (S i < length (chunks v) → length c = ChunkSize)%nat.

End Defs.
Arguments t : clear implicits.

End ChunkedVector.

(** ** Symbols *)

Module SymbolStr.
(** [const std::string * s]: a view holds the address of the text, not
    the text. *)
Record t := mk { s : ChunkedVector.ptr }.
End SymbolStr.

Module Symbol.
Record t := mk { id : Z }.

(** [Symbol() : id(0)] *)
Definition default : t := mk 0.

(** [explicit operator bool] *)
Definition to_bool (a : t) : bool := 0 <? id a.

Definition lt (a other : t) : bool := id a <? id other.
Definition eqb (a other : t) : bool := id a =? id other.
Definition neqb (a other : t) : bool := negb (id a =? id other).
End Symbol.

(** ** The minimal symbol table *)

Module MinimalSymbolTable.

(** [ChunkedVector<std::string, 8192>] *)
Definition ChunkSize : nat := Z.to_nat 8192.

(** [symbols] maps the text of an entry to the address of its copy in
    [store] and to its index. *)
Record t := mk {
  symbols : gmap string (ChunkedVector.ptr * Z);
  store : ChunkedVector.t string
}.

(** A freshly constructed table: [symbols] empty and [store{16}]. *)
Definition empty : t := mk ∅ (ChunkedVector.make 16).

(** [std::unordered_map::emplace]: inserts unless the key is present. *)
Definition emplace (k : string) (v : ChunkedVector.ptr * Z)
    (m : gmap string (ChunkedVector.ptr * Z)) :
    gmap string (ChunkedVector.ptr * Z) :=
  match m !! k with
  | Some _ => m
  | None => <[k := v]> m
  end.

Definition insert (s : string) (tbl : t) : Symbol.t * t :=
  let '((rawSym, idx), store') :=
    ChunkedVector.add ChunkSize s (store tbl) in
  (Symbol.mk (u32 (Z.of_nat idx + 1)),
   mk (emplace s (rawSym, u32 (Z.of_nat idx)) (symbols tbl)) store').

Definition create (s : string) (tbl : t) : Symbol.t * t :=
  match symbols tbl !! s with
  | Some it => (Symbol.mk (u32 (it.2 + 1)), tbl)
  | None => insert s tbl
  end.

(** [operator[]] *)
Definition get (tbl : t) (s : Symbol.t) : outcome SymbolStr.t :=
  if (Symbol.id s =? 0)
     || (Symbol.id s >? Z.of_nat (ChunkedVector.size (store tbl)))
  then Aborts
  else Returns (SymbolStr.mk
         (ChunkedVector.index ChunkSize (Z.to_nat (u32 (Symbol.id s - 1))))).

(** The loop of [resolve]: [result.push_back] of [operator[]] at each
    symbol in turn; an [abort()] ends it. *)
Fixpoint resolve_loop (tbl : t) (syms : list Symbol.t)
    (result : list SymbolStr.t) : outcome (list SymbolStr.t) :=
  match syms with
  | [] => Returns result
  | sym :: rest =>
      match get tbl sym with
      | Returns str => resolve_loop tbl rest (result ++ [str])
      | Throws e => Throws e
      | Aborts => Aborts
      end
  end.

Definition resolve (tbl : t) (syms : list Symbol.t) :
    outcome (list SymbolStr.t) :=
  resolve_loop tbl syms [].

Definition size (tbl : t) : nat := ChunkedVector.size (store tbl).

(** [dump(callback)]: the entries handed to the callback, in order. *)
Definition dump (tbl : t) : list string := ChunkedVector.forEach (store tbl).

(** The text behind a view: [*s], read in the store of the table the view
    came from. *)
Definition str (tbl : t) (v : SymbolStr.t) : option string :=
  ChunkedVector.deref (store tbl) (SymbolStr.s v).

(** [SymbolStr::operator==(std::string_view)]: [*s == s2]. *)
Definition str_eqb (tbl : t) (v : SymbolStr.t) (s2 : string) : option bool :=
  s1 ← str tbl v; Some (bool_decide (s1 = s2)).

(** The text [operator[]] gives for a symbol, when it returns. *)
Definition text (tbl : t) (sym : Symbol.t) : option string :=
  match get tbl sym with
  | Returns v => str tbl v
  | _ => None
  end.

(** The tables a client can obtain from [tbl] through [create], as long
    as the entries can be numbered in a [uint32_t]: identifier
    [u32_max] is the last one that [idx + 1] yields without wrapping. *)
Inductive reachable_from (tbl : t) : t → Prop :=
| reachable_refl : reachable_from tbl tbl
| reachable_create (s : string) (tbl' : t) :
    reachable_from tbl tbl' →
    Z.of_nat (size (create s tbl').2) ≤ u32_max →
    reachable_from tbl (create s tbl').2.

(** The states of a table since its construction. *)
Definition reachable : t → Prop := reachable_from empty.

(** A client that interns the texts of a list in turn. *)
Definition create_all (ss : list string) (tbl : t) : t :=
  foldl (λ tbl s, (create s tbl).2) tbl ss.

(** What [create] maintains between [symbols] and [store]: the store is
    well-shaped and its entries can be numbered in a [uint32_t]; [symbols]
    has exactly the stored texts as keys, each mapped to the address and
    the index of its entry. *)
Definition inv (tbl : t) : Prop :=
  ChunkedVector.wf ChunkSize (store tbl) ∧
  Z.of_nat (size tbl) ≤ u32_max ∧
  ∀ s p i, symbols tbl !! s = Some (p, i) ↔
    ∃ n : nat, i = Z.of_nat n ∧ p = ChunkedVector.index ChunkSize n ∧
               dump tbl !! n = Some s.

(** An identifier that [operator[]] accepts: neither zero nor beyond the
    entries. *)
Definition valid (tbl : t) (sym : Symbol.t) : Prop :=
  0 < Symbol.id sym ≤ Z.of_nat (size tbl).

(** A client that interns the texts of a list in turn and keeps the
    symbols it is given. *)
Fixpoint create_list (ss : list string) (tbl : t) : list Symbol.t * t :=
  match ss with
  | [] => ([], tbl)
  | s :: rest =>
      let '(sym, tbl1) := create s tbl in
      let '(syms, tbl2) := create_list rest tbl1 in
      (sym :: syms, tbl2)
  end.

End MinimalSymbolTable.

(** ** The symbol table with the common symbols *)

Module SymbolTable.

(** [struct SymbolTable : public MinimalSymbolTable]: the base object and
    the constant members, in the order of their declaration.  The member
    [with] is a keyword here and is spelled [with_]. *)
Record t := mk {
  base : MinimalSymbolTable.t;
  __contentAddressed : Symbol.t;
  __functor : Symbol.t;
  __ignoreNulls : Symbol.t;
  __impure : Symbol.t;
  __operators : Symbol.t;
  __overrides : Symbol.t;
  __structuredAttrs : Symbol.t;
  __toString : Symbol.t;
  _combineChannels : Symbol.t;
  _type : Symbol.t;
  add : Symbol.t;
  allOutputs : Symbol.t;
  args : Symbol.t;
  body : Symbol.t;
  builder : Symbol.t;
  column : Symbol.t;
  concat : Symbol.t;
  derivation : Symbol.t;
  derivations : Symbol.t;
  description : Symbol.t;
  divide : Symbol.t;
  drvPath : Symbol.t;
  epsilon : Symbol.t;
  equal : Symbol.t;
  file : Symbol.t;
  flake : Symbol.t;
  follows : Symbol.t;
  has : Symbol.t;
  hydraJobs : Symbol.t;
  inputs : Symbol.t;
  imply : Symbol.t;
  import : Symbol.t;
  key : Symbol.t;
  lessThan : Symbol.t;
  line : Symbol.t;
  logicAnd : Symbol.t;
  logicNot : Symbol.t;
  logicOr : Symbol.t;
  mainProgram : Symbol.t;
  meta : Symbol.t;
  multiply : Symbol.t;
  name : Symbol.t;
  negate : Symbol.t;
  nixConfig : Symbol.t;
  nixPath : Symbol.t;
  operator_ : Symbol.t;
  or_ : Symbol.t;
  outPath : Symbol.t;
  outputHash : Symbol.t;
  outputHashAlgo : Symbol.t;
  outputHashMode : Symbol.t;
  outputName : Symbol.t;
  outputSpecified : Symbol.t;
  outputs : Symbol.t;
  outputsToInstall : Symbol.t;
  path : Symbol.t;
  pname : Symbol.t;
  prefix : Symbol.t;
  priority : Symbol.t;
  readFileType : Symbol.t;
  recurseForDerivations : Symbol.t;
  resolvePath : Symbol.t;
  right : Symbol.t;
  self : Symbol.t;
  startSet : Symbol.t;
  subtract : Symbol.t;
  system : Symbol.t;
  type : Symbol.t;
  update : Symbol.t;
  url : Symbol.t;
  urls : Symbol.t;
  value : Symbol.t;
  welcomeText : Symbol.t;
  with_ : Symbol.t;
  wrong : Symbol.t
}.

(** [SymbolTable()]: the base object is constructed first, then each
    member is initialised by its [insert], in declaration order. *)
Definition make : t :=
  let tbl := MinimalSymbolTable.empty in
  let '(__contentAddressed, tbl) := MinimalSymbolTable.insert "__contentAddressed" tbl in
  let '(__functor, tbl) := MinimalSymbolTable.insert "__functor" tbl in
  let '(__ignoreNulls, tbl) := MinimalSymbolTable.insert "__ignoreNulls" tbl in
  let '(__impure, tbl) := MinimalSymbolTable.insert "__impure" tbl in
  let '(__operators, tbl) := MinimalSymbolTable.insert "__operators" tbl in
  let '(__overrides, tbl) := MinimalSymbolTable.insert "__overrides" tbl in
  let '(__structuredAttrs, tbl) := MinimalSymbolTable.insert "__structuredAttrs" tbl in
  let '(__toString, tbl) := MinimalSymbolTable.insert "__toString" tbl in
  let '(_combineChannels, tbl) := MinimalSymbolTable.insert "_combineChannels" tbl in
  let '(_type, tbl) := MinimalSymbolTable.insert "_type" tbl in
  let '(add, tbl) := MinimalSymbolTable.insert "add" tbl in
  let '(allOutputs, tbl) := MinimalSymbolTable.insert "allOutputs" tbl in
  let '(args, tbl) := MinimalSymbolTable.insert "args" tbl in
  let '(body, tbl) := MinimalSymbolTable.insert "body" tbl in
  let '(builder, tbl) := MinimalSymbolTable.insert "builder" tbl in
  let '(column, tbl) := MinimalSymbolTable.insert "column" tbl in
  let '(concat, tbl) := MinimalSymbolTable.insert "concat" tbl in
  let '(derivation, tbl) := MinimalSymbolTable.insert "derivation" tbl in
  let '(derivations, tbl) := MinimalSymbolTable.insert "derivations" tbl in
  let '(description, tbl) := MinimalSymbolTable.insert "description" tbl in
  let '(divide, tbl) := MinimalSymbolTable.insert "divide" tbl in
  let '(drvPath, tbl) := MinimalSymbolTable.insert "drvPath" tbl in
  let '(epsilon, tbl) := MinimalSymbolTable.insert EmptyString tbl in
  let '(equal, tbl) := MinimalSymbolTable.insert "equal" tbl in
  let '(file, tbl) := MinimalSymbolTable.insert "file" tbl in
  let '(flake, tbl) := MinimalSymbolTable.insert "flake" tbl in
  let '(follows, tbl) := MinimalSymbolTable.insert "follows" tbl in
  let '(has, tbl) := MinimalSymbolTable.insert "has" tbl in
  let '(hydraJobs, tbl) := MinimalSymbolTable.insert "hydraJobs" tbl in
  let '(inputs, tbl) := MinimalSymbolTable.insert "inputs" tbl in
  let '(imply, tbl) := MinimalSymbolTable.insert "imply" tbl in
  let '(import, tbl) := MinimalSymbolTable.insert "import" tbl in
  let '(key, tbl) := MinimalSymbolTable.insert "key" tbl in
  let '(lessThan, tbl) := MinimalSymbolTable.insert "lessThan" tbl in
  let '(line, tbl) := MinimalSymbolTable.insert "line" tbl in
  let '(logicAnd, tbl) := MinimalSymbolTable.insert "logicOr" tbl in
  let '(logicNot, tbl) := MinimalSymbolTable.insert "logicNot" tbl in
  let '(logicOr, tbl) := MinimalSymbolTable.insert "logicAnd" tbl in
  let '(mainProgram, tbl) := MinimalSymbolTable.insert "mainProgram" tbl in
  let '(meta, tbl) := MinimalSymbolTable.insert "meta" tbl in
  let '(multiply, tbl) := MinimalSymbolTable.insert "multiply" tbl in
  let '(name, tbl) := MinimalSymbolTable.insert "name" tbl in
  let '(negate, tbl) := MinimalSymbolTable.insert "negate" tbl in
  let '(nixConfig, tbl) := MinimalSymbolTable.insert "nixConfig" tbl in
  let '(nixPath, tbl) := MinimalSymbolTable.insert "nixPath" tbl in
  let '(operator_, tbl) := MinimalSymbolTable.insert "operator" tbl in
  let '(or_, tbl) := MinimalSymbolTable.insert "or" tbl in
  let '(outPath, tbl) := MinimalSymbolTable.insert "outPath" tbl in
  let '(outputHash, tbl) := MinimalSymbolTable.insert "outputHash" tbl in
  let '(outputHashAlgo, tbl) := MinimalSymbolTable.insert "outputHashAlgo" tbl in
  let '(outputHashMode, tbl) := MinimalSymbolTable.insert "outputHashMode" tbl in
  let '(outputName, tbl) := MinimalSymbolTable.insert "outputName" tbl in
  let '(outputSpecified, tbl) := MinimalSymbolTable.insert "outputSpecified" tbl in
  let '(outputs, tbl) := MinimalSymbolTable.insert "outputs" tbl in
  let '(outputsToInstall, tbl) := MinimalSymbolTable.insert "outputsToInstall" tbl in
  let '(path, tbl) := MinimalSymbolTable.insert "path" tbl in
  let '(pname, tbl) := MinimalSymbolTable.insert "pname" tbl in
  let '(prefix, tbl) := MinimalSymbolTable.insert "prefix" tbl in
  let '(priority, tbl) := MinimalSymbolTable.insert "priority" tbl in
  let '(readFileType, tbl) := MinimalSymbolTable.insert "readFileType" tbl in
  let '(recurseForDerivations, tbl) := MinimalSymbolTable.insert "recurseForDerivations" tbl in
  let '(resolvePath, tbl) := MinimalSymbolTable.insert "resolvePath" tbl in
  let '(right, tbl) := MinimalSymbolTable.insert "right" tbl in
  let '(self, tbl) := MinimalSymbolTable.insert "self" tbl in
  let '(startSet, tbl) := MinimalSymbolTable.insert "startSet" tbl in
  let '(subtract, tbl) := MinimalSymbolTable.insert "subtract" tbl in
  let '(system, tbl) := MinimalSymbolTable.insert "system" tbl in
  let '(type, tbl) := MinimalSymbolTable.insert "type" tbl in
  let '(update, tbl) := MinimalSymbolTable.insert "update" tbl in
  let '(url, tbl) := MinimalSymbolTable.insert "url" tbl in
  let '(urls, tbl) := MinimalSymbolTable.insert "urls" tbl in
  let '(value, tbl) := MinimalSymbolTable.insert "value" tbl in
  let '(welcomeText, tbl) := MinimalSymbolTable.insert "welcomeText" tbl in
  let '(with_, tbl) := MinimalSymbolTable.insert "<with>" tbl in
  let '(wrong, tbl) := MinimalSymbolTable.insert "wrong" tbl in
  mk tbl
    __contentAddressed __functor __ignoreNulls __impure __operators
    __overrides __structuredAttrs __toString _combineChannels _type add
    allOutputs args body builder column concat derivation derivations
    description divide drvPath epsilon equal file flake follows has
    hydraJobs inputs imply import key lessThan line logicAnd logicNot
    logicOr mainProgram meta multiply name negate nixConfig nixPath
    operator_ or_ outPath outputHash outputHashAlgo outputHashMode
    outputName outputSpecified outputs outputsToInstall path pname prefix
    priority readFileType recurseForDerivations resolvePath right self
    startSet subtract system type update url urls value welcomeText with_
    wrong.

End SymbolTable.

(** ** Attributes and attribute records *)

(** Modelled from the spec: [PosIdx] is declared outside the sources at
    hand; an attribute carries a "source-position tag", which is
    "informational (for diagnostics) and not part of ordering". *)
Definition PosIdx : Type := Z.
Definition noPos : PosIdx := 0.

(** [Value *]: the address of a value cell. *)
Definition ValuePtr : Type := nat.

Module Attr.
(** Modelled from the spec: [struct Attr] is declared in [attr-set.hh],
    which is not part of the sources at hand; an attribute is "a triple of
    (symbol identifier, owned reference to an evaluated value,
    source-position tag)". *)
Record t := mk { name : Symbol.t; value : ValuePtr; pos : PosIdx }.

(** Modelled from the spec: the order [std::sort] uses in
    [Bindings::sort], which "sorts the triples by symbol identifier":
    [Symbol::operator<] on the names. *)
Definition lt (a b : t) : bool := Symbol.lt (name a) (name b).

(** [a] may stand before [b] in ascending order: [!(b < a)]. *)
Definition le (a b : t) : Prop := lt b a = false.

#[global] Instance le_dec : RelDecision le := λ a b, decide (lt b a = false).
End Attr.

Module Bindings.
(** Modelled from the spec: [class Bindings] is declared in
    [attr-set.hh], which is not part of the sources at hand; "a
    fixed-capacity, append-only sequence of Attribute, allocated with a
    declared capacity at construction time; size grows monotonically from
    0 up to capacity via append".  [attrs] holds the [size_] attributes
    appended so far. *)
Record t := mk { capacity_ : Z; attrs : list Attr.t }.

(** [Bindings(capacity)] *)
Definition make (capacity : Z) : t := mk capacity [].

(** [size()], the member [size_]. *)
Definition size (b : t) : Z := Z.of_nat (length (attrs b)).

(** Modelled from the spec: "adds one triple at the next free slot.
    Calling this beyond the declared capacity is a caller contract
    violation (undefined/fatal), not a checked error". *)
Definition push_back (attr : Attr.t) (b : t) : outcome t :=
  if size b <? capacity_ b
  then Returns (mk (capacity_ b) (attrs b ++ [attr]))
  else Aborts.

(** [std::sort(first, last)] of the C++ standard library: the range
    rearranged into ascending order of [operator<].  The standard leaves
    the relative order of equivalent elements open; this model keeps one
    of the permitted results. *)
Definition std_sort (l : list Attr.t) : list Attr.t :=
  merge_sort Attr.le l.

Definition sort (b : t) : t :=
  if negb (size b =? 0)
  then mk (capacity_ b) (std_sort (attrs b))
  else b.
End Bindings.

(** [Bindings *]: the address of the shared empty record of the evaluator,
    or the address of a record obtained from the allocator. *)
Inductive BindingsPtr : Type :=
| EmptyBindings
| Allocated (addr : nat).

(** ** Values *)

(** [PrimOpFun]: the address of a native function. *)
Definition PrimOpFun : Type := nat.

Module PrimOp.
(** Modelled from the spec: [struct PrimOp] is declared outside the
    sources at hand; a "primitive descriptor: (name, argument-name list or
    declared arity, documentation text, native function reference, ...,
    operator-flag)".  The fields are those [allocOp] initialises; [fun] is
    a keyword here and is spelled [fun_]. *)
Record t := mk {
  fun_ : PrimOpFun;
  arity : Z;
  name : string;
  args : list string;
  doc : string;
  isOp : bool
}.
End PrimOp.

Module Value.
(** Modelled from the spec: [struct Value] is declared outside the sources
    at hand.  A value cell is blank when the allocator hands it out, or
    holds a record ("an attribute record is exclusively owned by whichever
    evaluated value references it") through the address of its attribute
    record, or holds a primitive function through its descriptor. *)
Inductive t : Type :=
| VBlank
| VAttrs (attrs : BindingsPtr)
| VPrimOp (primOp : PrimOp.t).
End Value.

(** ** The evaluator state *)

Module EvalState.

(** Modelled from the spec: [class EvalState] is declared in [eval.hh],
    which is not part of the sources at hand.  The state holds what the
    functions of [attr-set.cc] use: the symbol table, the shared empty
    record ("a single shared, zero-capacity instance"), the "two running
    counters (total records allocated, total attribute slots allocated)",
    and the memory handed out by the allocation facility: the records
    placed in it, by address, and the number of value cells. *)
Record t := mk {
  symbols : MinimalSymbolTable.t;
  emptyBindings : Bindings.t;
  nrAttrsets : Z;
  nrAttrsInAttrsets : Z;
  heap : list Bindings.t;
  valueCells : nat
}.

(** A new evaluator around a given symbol table. *)
Definition make (tbl : MinimalSymbolTable.t) : t :=
  mk tbl (Bindings.make 0) 0 0 [] 0.

(** Calls on the evaluator: the outcome and the state left behind. *)
Definition M (A : Type) : Type := t → outcome A * t.

#[global] Instance M_ret : MRet M := λ A a st, (Returns a, st).

#[global] Instance M_bind : MBind M := λ A B f m st,
  match m st with
  | (Returns a, st') => f a st'
  | (Throws e, st') => (Throws e, st')
  | (Aborts, st') => (Aborts, st')
  end.

Definition throw {A} (e : Error) : M A := λ st, (Throws e, st).
Definition abort {A} : M A := λ st, (Aborts, st).

(** The record an address points to. *)
Definition deref (st : t) (p : BindingsPtr) : option Bindings.t :=
  match p with
  | EmptyBindings => Some (emptyBindings st)
  | Allocated a => heap st !! a
  end.

(** Writing a record through its address. *)
Definition assign (p : BindingsPtr) (b : Bindings.t) (st : t) : t :=
  match p with
  | EmptyBindings =>
      mk (symbols st) b (nrAttrsets st) (nrAttrsInAttrsets st)
         (heap st) (valueCells st)
  | Allocated a =>
      mk (symbols st) (emptyBindings st) (nrAttrsets st)
         (nrAttrsInAttrsets st) (<[a := b]> (heap st)) (valueCells st)
  end.

(** Modelled from the spec: "allocate raw bytes of size N", "assumed
    infallible"; followed by the placement [new] of [attr-set.cc], which
    constructs the record [b] at the fresh address. *)
Definition allocBytes_new (b : Bindings.t) : M BindingsPtr := λ st,
  (Returns (Allocated (length (heap st))),
   mk (symbols st) (emptyBindings st) (nrAttrsets st)
      (nrAttrsInAttrsets st) (heap st ++ [b]) (valueCells st)).

(** Modelled from the spec: "allocate one value cell", "assumed
    infallible". *)
Definition allocValue : M ValuePtr := λ st,
  (Returns (valueCells st),
   mk (symbols st) (emptyBindings st) (nrAttrsets st)
      (nrAttrsInAttrsets st) (heap st) (S (valueCells st))).

(** [nrAttrsets++; nrAttrsInAttrsets += capacity;] *)
Definition count_attrset (capacity : Z) : M unit := λ st,
  (Returns tt,
   mk (symbols st) (emptyBindings st) (nrAttrsets st + 1)
      (nrAttrsInAttrsets st + capacity) (heap st) (valueCells st)).

(** [symbols.create(name)] *)
Definition symbols_create (name : string) : M Symbol.t := λ st,
  let '(sym, tbl) := MinimalSymbolTable.create name (symbols st) in
  (Returns sym,
   mk tbl (emptyBindings st) (nrAttrsets st) (nrAttrsInAttrsets st)
      (heap st) (valueCells st)).

(** [p->push_back(attr)] *)
Definition push_back (p : BindingsPtr) (attr : Attr.t) : M unit := λ st,
  match deref st p with
  | Some b =>
      match Bindings.push_back attr b with
      | Returns b' => (Returns tt, assign p b' st)
      | Throws e => (Throws e, st)
      | Aborts => (Aborts, st)
      end
  | None => (Aborts, st)
  end.

(** [p->sort()] *)
Definition sort (p : BindingsPtr) : M unit := λ st,
  match deref st p with
  | Some b => (Returns tt, assign p (Bindings.sort b) st)
  | None => (Aborts, st)
  end.

Section Limits.
(** [std::numeric_limits<Bindings::size_t>::max()]: [Bindings::size_t]
    is declared in [attr-set.hh], which is not part of the sources at
    hand; the spec calls it "the maximum representable record size" and
    gives no value, so it is a parameter. *)
Variable size_t_max : Z.

Definition allocBindings (capacity : Z) : M BindingsPtr :=
  if capacity =? 0 then mret EmptyBindings
  else if capacity >? size_t_max
  then throw (mkError "attribute set of size %d is too big" capacity)
  else _ ← count_attrset capacity;
       allocBytes_new (Bindings.make capacity).
End Limits.

(** [EvalState::allocAttr(Value & vAttrs, Symbol name)].  The attribute is
    built by the two-argument constructor of [Attr], which leaves the
    position at [noPos].  Reading the member [attrs] of a value that holds
    no record is undefined in the source; the model aborts there. *)
Definition allocAttr (vAttrs : Value.t) (name : Symbol.t) : M ValuePtr :=
  v ← allocValue;
  _ ← match vAttrs with
      | Value.VAttrs attrs => push_back attrs (Attr.mk name v noPos)
      | _ => abort
      end;
  mret v.

(** [EvalState::allocAttr(Value & vAttrs, std::string_view name)] *)
Definition allocAttr_name (vAttrs : Value.t) (name : string) : M ValuePtr :=
  sym ← symbols_create name;
  allocAttr vAttrs sym.

(** The value cells the attributes of the allocated records refer to,
    record after record. *)
Definition cells (st : t) : list ValuePtr :=
  b ← heap st; Attr.value <$> Bindings.attrs b.

(** What the functions of [attr-set.cc] maintain: the shared empty record
    is empty; the two counters are the number and the total capacity of
    the allocated records; no record holds more attributes than its
    capacity; every attribute has a value cell of its own, handed out by
    the allocator. *)
Definition consistent (st : t) : Prop :=
  emptyBindings st = Bindings.make 0 ∧
  nrAttrsets st = Z.of_nat (length (heap st)) ∧
  nrAttrsInAttrsets st = foldr (λ b n, Bindings.capacity_ b + n) 0 (heap st) ∧
  Forall (λ b, Bindings.size b ≤ Bindings.capacity_ b) (heap st) ∧
  NoDup (cells st) ∧
  Forall (λ v, (v < valueCells st)%nat) (cells st).

End EvalState.

(** ** The record builder *)

Module BindingsBuilder.
Import EvalState.

(** Modelled from the spec: [class BindingsBuilder] is declared in
    [attr-set.hh], which is not part of the sources at hand; a "transient
    object owning an in-progress attribute record plus a reference to the
    allocation facility".  The reference [state] is the evaluator state
    the calls run in. *)
Record t := mk { bindings : BindingsPtr }.

(** Modelled from the spec: "[open(expected capacity)]: allocates an
    attribute record of that capacity via the allocation facility; the
    builder owns it until finalized". *)
Definition open (size_t_max capacity : Z) : M t :=
  p ← allocBindings size_t_max capacity;
  mret (mk p).

(** [BindingsBuilder::alloc(Symbol name, PosIdx pos)] *)
Definition alloc (bb : t) (name : Symbol.t) (pos : PosIdx) : M ValuePtr :=
  value ← allocValue;
  _ ← push_back (bindings bb) (Attr.mk name value pos);
  mret value.

(** [BindingsBuilder::alloc(std::string_view name, PosIdx pos)] *)
Definition alloc_name (bb : t) (name : string) (pos : PosIdx) : M ValuePtr :=
  sym ← symbols_create name;
  alloc bb sym pos.

(** Modelled from the spec: "[finish()]: calls finalize on the owned
    record and returns it". *)
Definition finish (bb : t) : M BindingsPtr :=
  _ ← EvalState.sort (bindings bb);
  mret (bindings bb).

(** [BindingsBuilder::allocOp(symbol, op, args, doc, fun)].  The contents of
    the value cells are kept apart from the evaluator state, as a map from
    the address of a cell to the value written to it: [mkPrimOp] writes the
    new descriptor to the cell [alloc] returned. *)
Definition allocOp (bb : t) (symbol : Symbol.t) (op : string)
    (args : list string) (doc : string) (fun_ : PrimOpFun)
    (contents : gmap nat Value.t) : M (gmap nat Value.t) :=
  v ← alloc bb symbol noPos;
  mret (<[v := Value.VPrimOp
               (PrimOp.mk fun_ (Z.of_nat (length args)) op args doc true)]>
          contents).
End BindingsBuilder.

(** [Value::mkAttrs(BindingsBuilder & bindings)]: [mkAttrs(bindings.finish())]
    makes the value a record with the finished attribute record; the new
    contents of the value are returned. *)
Definition Value_mkAttrs (bb : BindingsBuilder.t) : EvalState.M Value.t :=
  p ← BindingsBuilder.finish bb;
  mret (Value.VAttrs p).

(** ** The scenario of the specification *)

Module Scenario.
Import EvalState.

(** Three calls of [create], then a record built through the builder. *)
Definition run (size_t_max : Z) :
    M (Symbol.t * Symbol.t * Symbol.t * BindingsPtr) :=
  foo1 ← symbols_create "foo";
  bar ← symbols_create "bar";
  foo2 ← symbols_create "foo";
  bb ← BindingsBuilder.open size_t_max 2;
  _ ← BindingsBuilder.alloc_name bb "bar" noPos;
  _ ← BindingsBuilder.alloc_name bb "foo" noPos;
  p ← BindingsBuilder.finish bb;
  mret (foo1, bar, foo2, p).

(** The entries of a record, front to back: the identifier of each name
    and the text the symbol table has for it. *)
Definition entries (st : t) (b : Bindings.t) : list (Z * option string) :=
  (λ a, (Symbol.id (Attr.name a),
         MinimalSymbolTable.text (symbols st) (Attr.name a)))
    <$> Bindings.attrs b.
End Scenario.

(** ** Building a record from a list of names *)

Module Build.
Import EvalState.

(** A slot for each name of a list, in turn. *)
Fixpoint alloc_names (bb : BindingsBuilder.t) (names : list string)
    (pos : PosIdx) : M unit :=
  match names with
  | [] => mret tt
  | name :: rest =>
      _ ← BindingsBuilder.alloc_name bb name pos;
      alloc_names bb rest pos
  end.

(** A client that opens a builder for as many attributes as there are
    names, declares a slot for each name and makes a record value of the
    result. *)
Definition run (size_t_max : Z) (names : list string) : M Value.t :=
  bb ← BindingsBuilder.open size_t_max (Z.of_nat (length names));
  _ ← alloc_names bb names noPos;
  Value_mkAttrs bb.
End Build.

(** * Properties *)

(** ** The backing store *)

Section ChunkedVectorFacts.
Context {T : Type}.
Variable ChunkSize : nat.
Hypothesis ChunkSize_pos : (0 < ChunkSize)%nat.
Implicit Types (v : ChunkedVector.t T) (cs : list (list T)).

Local Open Scope nat_scope.

Lemma wf_make reserve : ChunkedVector.wf ChunkSize (ChunkedVector.make (T:=T) reserve).
Proof. intros i c H. by destruct i. Qed.

Lemma wf_tail c cs :
  ChunkedVector.wf ChunkSize (ChunkedVector.mk (c :: cs)) →
  ChunkedVector.wf ChunkSize (ChunkedVector.mk cs).
Proof.
  intros Hwf i c' Hi. destruct (Hwf (S i) c' Hi) as [Hle Hfull].
  split; [done|]. intros Hlt. apply Hfull. simpl in *. lia.
Qed.

Lemma div_mod_step idx :
  ChunkSize ≤ idx →
  idx / ChunkSize = S ((idx - ChunkSize) / ChunkSize) ∧
  idx mod ChunkSize = (idx - ChunkSize) mod ChunkSize.
Proof.
  intros Hle.
  replace idx with ((idx - ChunkSize) + 1 * ChunkSize) at 1 3 by lia.
  rewrite Nat.div_add by lia. rewrite Nat.Div0.mod_add. lia.
Qed.

(** Reading the element of index [idx] through its address finds the
    [idx]-th element of the sequence. *)
Lemma lookup_chunks cs idx :
  ChunkedVector.wf ChunkSize (ChunkedVector.mk cs) →
  concat cs !! idx = cs !! (idx / ChunkSize) ≫= (.!! (idx mod ChunkSize)).
Proof.
  revert idx. induction cs as [|c cs IH]; intros idx Hwf; [done|].
  destruct (Hwf O c eq_refl) as [Hle Hfull]. simpl in Hfull.
  destruct (decide (idx < ChunkSize)) as [Hlt|Hge].
  - rewrite Nat.div_small, Nat.mod_small by done. simpl.
    destruct cs as [|c' cs'].
    + by rewrite app_nil_r.
    + rewrite lookup_app_l; [done|]. rewrite Hfull; [done|simpl; lia].
  - destruct (div_mod_step idx) as [-> ->]; [lia|]. simpl.
    destruct cs as [|c' cs'].
    + rewrite app_nil_r. apply lookup_ge_None_2. lia.
    + rewrite lookup_app_r by (rewrite Hfull; simpl; lia).
      rewrite Hfull by (simpl; lia).
      apply IH. by eapply wf_tail.
Qed.

Lemma deref_index v idx :
  ChunkedVector.wf ChunkSize v →
  ChunkedVector.deref v (ChunkedVector.index ChunkSize idx)
  = ChunkedVector.forEach v !! idx.
Proof.
  intros Hwf. destruct v as [cs]. symmetry. by apply lookup_chunks.
Qed.

Lemma size_snoc (init : list (list T)) (back : list T) :
  ChunkedVector.wf ChunkSize (ChunkedVector.mk (init ++ [back])) →
  length (concat (init ++ [back])) = length init * ChunkSize + length back.
Proof.
  induction init as [|c init IH]; intros Hwf; simpl.
  - by rewrite app_nil_r.
  - rewrite length_app. rewrite IH by (by eapply wf_tail).
    destruct (Hwf O c eq_refl) as [_ ->]; [lia|].
    simpl. rewrite length_app. simpl. lia.
Qed.

Lemma wf_snoc_room (init : list (list T)) (back : list T) (x : T) :
  ChunkedVector.wf ChunkSize (ChunkedVector.mk (init ++ [back])) →
  length back < ChunkSize →
  ChunkedVector.wf ChunkSize (ChunkedVector.mk (init ++ [back ++ [x]])).
Proof.
  intros Hwf Hroom i c Hi. simpl in *.
  rewrite length_app in *. simpl in *.
  destruct (decide (i < length init)) as [Hlt|Hge].
  - rewrite lookup_app_l in Hi by done.
    destruct (Hwf i c) as [Hle Hfull].
    { simpl. by rewrite lookup_app_l. }
    split; [done|]. intros _. apply Hfull. simpl. rewrite length_app. simpl. lia.
  - rewrite lookup_app_r in Hi by lia.
    destruct (i - length init) as [|k] eqn:Hk; simpl in Hi; [|by destruct k].
    injection Hi as <-. rewrite length_app. simpl. split; lia.
Qed.

Lemma wf_snoc_full cs x :
  ChunkedVector.wf ChunkSize (ChunkedVector.mk cs) →
  (∀ back, last cs = Some back → length back = ChunkSize) →
  ChunkedVector.wf ChunkSize (ChunkedVector.mk (cs ++ [[x]])).
Proof.
  intros Hwf Hlast i c Hi. simpl in *.
  rewrite length_app in *. simpl in *.
  destruct (decide (i < length cs)) as [Hlt|Hge].
  - rewrite lookup_app_l in Hi by done.
    destruct (Hwf i c Hi) as [Hle Hfull].
    split; [done|]. intros _.
    destruct (decide (S i < length cs)) as [?|Hlast_i]; [by apply Hfull|].
    apply Hlast. rewrite last_lookup.
    replace (pred (length cs)) with i by lia. done.
  - rewrite lookup_app_r in Hi by lia.
    destruct (i - length cs) as [|k] eqn:Hk; simpl in Hi; [|by destruct k].
    injection Hi as <-. simpl. split; lia.
Qed.

(** [add] appends to the sequence, numbers the new element by the old
    size, returns the address [operator[]] computes for that index, and
    keeps the store well-shaped. *)
Lemma add_spec x v :
  ChunkedVector.wf ChunkSize v →
  ∃ v', ChunkedVector.add ChunkSize x v
        = ((ChunkedVector.index ChunkSize (ChunkedVector.size v),
            ChunkedVector.size v), v') ∧
        ChunkedVector.wf ChunkSize v' ∧
        ChunkedVector.forEach v' = ChunkedVector.forEach v ++ [x].
Proof.
  intros Hwf. destruct v as [cs].
  unfold ChunkedVector.add, ChunkedVector.size, ChunkedVector.forEach,
    ChunkedVector.index. simpl.
  destruct (last cs) as [back|] eqn:Hlast.
  - apply last_Some in Hlast as [init ->].
    pose proof (size_snoc init back Hwf) as Hsize.
    rewrite length_app. simpl.
    replace (length init + 1 - 1) with (length init) by lia.
    rewrite take_app_length.
    destruct (length back <? ChunkSize) eqn:Hroom.
    + apply Nat.ltb_lt in Hroom.
      eexists. split; [|split].
      * rewrite Hsize. rewrite Nat.div_add_l by lia.
        rewrite Nat.div_small by done. rewrite Nat.add_0_r.
        rewrite Nat.add_comm, Nat.Div0.mod_add, Nat.mod_small by done.
        reflexivity.
      * by apply wf_snoc_room.
      * simpl. rewrite !concat_app. simpl. by rewrite !app_nil_r, app_assoc.
    + apply Nat.ltb_ge in Hroom.
      assert (length back = ChunkSize) as Hfull.
      { destruct (Hwf (length init) back) as [Hle _]; [|lia].
        simpl. by rewrite list_lookup_middle. }
      eexists. split; [|split].
      * rewrite Hsize, Hfull.
        replace (length init * ChunkSize + ChunkSize)
          with (0 + (length init + 1) * ChunkSize) by lia.
        rewrite Nat.div_add, Nat.Div0.mod_add by lia.
        rewrite Nat.div_small, Nat.mod_small by done. simpl.
        reflexivity.
      * apply wf_snoc_full; [done|].
        intros back'. rewrite last_snoc. by intros [= <-].
      * simpl. rewrite (concat_app (init ++ [back])). simpl. done.
  - apply last_None in Hlast as ->. simpl.
    eexists. split; [|split].
    + rewrite Nat.div_small, Nat.mod_small by done. reflexivity.
    + intros i c Hi. destruct i as [|[|]]; try done.
      injection Hi as <-. simpl. split; lia.
    + done.
Qed.

(** Address stability: what an address read before [add] it still reads
    afterwards. *)
Lemma add_stable x v p y :
  ChunkedVector.deref v p = Some y →
  ChunkedVector.deref (ChunkedVector.add ChunkSize x v).2 p = Some y.
Proof.
  destruct v as [cs], p as [k o].
  unfold ChunkedVector.deref, ChunkedVector.add. simpl.
  intros Hread.
  destruct (cs !! k) as [c|] eqn:Hk; [|done]. simpl in Hread.
  destruct (last cs) as [back|] eqn:Hlast.
  - apply last_Some in Hlast as [init ->].
    rewrite length_app. simpl.
    replace (length init + 1 - 1) with (length init) by lia.
    rewrite take_app_length.
    destruct (length back <? ChunkSize); simpl.
    + destruct (decide (k < length init)) as [Hlt|Hge].
      * rewrite lookup_app_l in Hk by done.
        rewrite lookup_app_l by done. by rewrite Hk.
      * rewrite lookup_app_r in Hk by lia. rewrite lookup_app_r by lia.
        destruct (k - length init) as [|k']; simpl in *; [|by destruct k'].
        injection Hk as <-. simpl. by apply lookup_app_l_Some.
    + erewrite lookup_app_l_Some by done. done.
  - apply last_None in Hlast as ->. done.
Qed.

(** [add] grows the store by one element, whatever its shape. *)
Lemma size_add x v :
  ChunkedVector.size (ChunkedVector.add ChunkSize x v).2
  = S (ChunkedVector.size v).
Proof.
  destruct v as [cs]. unfold ChunkedVector.add, ChunkedVector.size. simpl.
  destruct (last cs) as [back|] eqn:Hlast.
  - apply last_Some in Hlast as [init ->].
    rewrite length_app. simpl.
    replace (length init + 1 - 1) with (length init) by lia.
    rewrite take_app_length.
    destruct (length back <? ChunkSize); simpl;
      rewrite !concat_app, !length_app; simpl;
      rewrite ?length_app, ?app_nil_r; simpl; lia.
  - by apply last_None in Hlast as ->.
Qed.

End ChunkedVectorFacts.

(** ** The minimal symbol table *)

Section MinimalSymbolTableFacts.
Import MinimalSymbolTable.
Implicit Types (tbl : MinimalSymbolTable.t) (s : string) (sym : Symbol.t).

Lemma table_ChunkSize_pos : (0 < ChunkSize)%nat.
Proof. unfold ChunkSize. lia. Qed.

Lemma u32_small z : 0 ≤ z ≤ u32_max → u32 z = z.
Proof.
  unfold u32, u32_max, u32_modulus. intros Hz. apply Z.mod_small. lia.
Qed.

Lemma size_dump tbl : size tbl = length (dump tbl).
Proof. done. Qed.

Lemma inv_empty : inv empty.
Proof.
  split; [apply wf_make|]. split; [done|].
  intros s p i. split.
  - simpl. by rewrite lookup_empty.
  - by intros (n & _ & _ & Hn).
Qed.

(** [insert] of a text that is not in the table. *)
Lemma insert_spec s tbl :
  inv tbl → symbols tbl !! s = None → Z.of_nat (size tbl) < u32_max →
  ∃ tbl', insert s tbl = (Symbol.mk (Z.of_nat (size tbl) + 1), tbl') ∧
          inv tbl' ∧ dump tbl' = dump tbl ++ [s].
Proof.
  intros (Hwf & Hsize & Hmap) Hnew Hroom.
  destruct (add_spec ChunkSize table_ChunkSize_pos s (store tbl) Hwf)
    as (store' & Hadd & Hwf' & Hseq).
  unfold insert. rewrite Hadd. fold (size tbl).
  rewrite !u32_small by lia.
  eexists. split; [reflexivity|].
  assert (dump (mk (emplace s
            (ChunkedVector.index ChunkSize (size tbl), Z.of_nat (size tbl))
            (symbols tbl)) store') = dump tbl ++ [s]) as Hdump by done.
  split; [|done].
  split; [done|]. split.
  { rewrite size_dump, Hdump, length_app, <- size_dump. simpl. lia. }
  intros s' p i. rewrite Hdump. simpl. unfold emplace. rewrite Hnew.
  destruct (decide (s = s')) as [<-|Hne].
  - rewrite lookup_insert_eq. split.
    + intros [= <- <-]. exists (size tbl). split; [done|]. split; [done|].
      rewrite size_dump. by rewrite list_lookup_middle.
    + intros (n & -> & -> & Hn).
      apply lookup_snoc_Some in Hn as [[Hlt Hn]|[Hlen _]].
      * assert (symbols tbl !! s
                = Some (ChunkedVector.index ChunkSize n, Z.of_nat n)) as Hin.
        { apply Hmap. by exists n. }
        congruence.
      * by rewrite size_dump, Hlen.
  - rewrite lookup_insert_ne by done. rewrite Hmap.
    split; intros (n & Hi & Hp & Hn); exists n; (split; [done|]);
      (split; [done|]).
    + by apply lookup_app_l_Some.
    + apply lookup_snoc_Some in Hn as [[_ Hn]|[_ ?]]; [done|congruence].
Qed.

(** What one call of [create] does. *)
Lemma create_spec s tbl :
  inv tbl → Z.of_nat (size (create s tbl).2) ≤ u32_max →
  ∃ n : nat,
    (create s tbl).1 = Symbol.mk (Z.of_nat n + 1) ∧
    dump (create s tbl).2 !! n = Some s ∧
    inv (create s tbl).2 ∧
    dump tbl `prefix_of` dump (create s tbl).2 ∧
    (is_Some (symbols tbl !! s) → (create s tbl).2 = tbl) ∧
    (symbols tbl !! s = None →
     n = size tbl ∧ dump (create s tbl).2 = dump tbl ++ [s]).
Proof.
  intros Hinv Hroom. pose proof Hinv as (Hwf & Hsize & Hmap).
  unfold create in *. destruct (symbols tbl !! s) as [[p i]|] eqn:Hs.
  - apply Hmap in Hs as (n & -> & -> & Hn). simpl.
    pose proof (lookup_lt_Some _ _ _ Hn) as Hlt. rewrite <- size_dump in Hlt.
    exists n. rewrite u32_small by lia.
    split; [done|]. split; [done|]. split; [done|]. split; [done|].
    split; [done|]. by intros [=].
  - destruct (add_spec ChunkSize table_ChunkSize_pos s (store tbl) Hwf)
      as (store' & Hadd & Hwf' & Hseq).
    assert (Z.of_nat (size tbl) < u32_max) as Hlt.
    { unfold insert in Hroom. rewrite Hadd in Hroom. simpl in Hroom.
      unfold size in Hroom. simpl in Hroom.
      change (ChunkedVector.size store')
        with (length (ChunkedVector.forEach store')) in Hroom.
      rewrite Hseq, length_app in Hroom. simpl in Hroom.
      rewrite size_dump. unfold dump. lia. }
    destruct (insert_spec s tbl Hinv Hs Hlt) as (tbl' & -> & Hinv' & Hdump).
    simpl. exists (size tbl). split; [done|]. split.
    { rewrite Hdump, size_dump. by rewrite list_lookup_middle. }
    split; [done|]. split; [rewrite Hdump; by apply prefix_app_r|].
    split; [by intros [? [=]]|done].
Qed.

Lemma reachable_from_inv tbl tbl' :
  inv tbl → reachable_from tbl tbl' →
  inv tbl' ∧ dump tbl `prefix_of` dump tbl'.
Proof.
  intros Hinv. induction 1 as [|s tbl' Hreach [IHinv IHpre] Hroom].
  - done.
  - destruct (create_spec s tbl' IHinv Hroom)
      as (n & _ & _ & Hinv' & Hpre & _).
    split; [done|]. by etrans.
Qed.

Lemma reachable_inv tbl : reachable tbl → inv tbl.
Proof.
  intros Hreach. by destruct (reachable_from_inv empty tbl inv_empty Hreach).
Qed.

Lemma reachable_from_trans tbl1 tbl2 tbl3 :
  reachable_from tbl1 tbl2 → reachable_from tbl2 tbl3 →
  reachable_from tbl1 tbl3.
Proof.
  intros H12. induction 1 as [|s tbl3 H23 IH Hroom]; [done|].
  by apply reachable_create.
Qed.

(** One more [create] on a table with room for one more entry. *)
Lemma create_room s tbl :
  inv tbl → Z.of_nat (size tbl) < u32_max →
  Z.of_nat (size (create s tbl).2) ≤ u32_max.
Proof.
  intros Hinv Hroom. unfold create.
  destruct (symbols tbl !! s) eqn:Hs; simpl; [lia|].
  destruct (insert_spec s tbl Hinv Hs Hroom) as (tbl' & -> & _ & Hdump).
  simpl. rewrite size_dump, Hdump, length_app, <- size_dump. simpl. lia.
Qed.

(** A view keeps its text while the table grows. *)
Lemma str_stable tbl tbl' v s :
  reachable_from tbl tbl' → str tbl v = Some s → str tbl' v = Some s.
Proof.
  induction 1 as [|s' tbl' Hreach IH Hroom]; intros Hstr; [done|].
  specialize (IH Hstr). unfold create.
  destruct (symbols tbl' !! s'); [done|].
  unfold insert, str in *.
  pose proof (add_stable ChunkSize table_ChunkSize_pos s' (store tbl')
                (SymbolStr.s v) s IH)
    as Hadd.
  by destruct (ChunkedVector.add ChunkSize s' (store tbl')) as [[p idx] store'].
Qed.

(** The identifier after [u32_max] would be zero: the reason why the
    store must have room. *)
Example u32_wraps_example : u32 (u32_max + 1) = 0.
Proof. reflexivity. Qed.

(** [operator[]] at the identifier of the entry of index [n]. *)
Lemma get_entry tbl (n : nat) s :
  inv tbl → dump tbl !! n = Some s →
  get tbl (Symbol.mk (Z.of_nat n + 1))
  = Returns (SymbolStr.mk (ChunkedVector.index ChunkSize n)) ∧
  str tbl (SymbolStr.mk (ChunkedVector.index ChunkSize n)) = Some s.
Proof.
  intros (Hwf & Hsize & _) Hn.
  pose proof (lookup_lt_Some _ _ _ Hn) as Hlt. rewrite <- size_dump in Hlt.
  unfold get, str. simpl. fold (size tbl).
  replace (Z.of_nat n + 1 =? 0) with false by lia.
  replace (Z.of_nat n + 1 >? Z.of_nat (size tbl)) with false by lia.
  simpl. rewrite u32_small by lia.
  replace (Z.to_nat (Z.of_nat n + 1 - 1)) with n by lia.
  split; [done|].
  rewrite deref_index; [done|apply table_ChunkSize_pos|done].
Qed.

End MinimalSymbolTableFacts.

Section MinimalSymbolTableClaims.
Import MinimalSymbolTable.
Implicit Types (tbl : MinimalSymbolTable.t) (s : string) (sym : Symbol.t).

(** The symbol [create] returns resolves to its text in every later
    state of the table, and is not zero. *)
Lemma create_then_get s tbl tbl' :
  reachable tbl → Z.of_nat (size tbl) < u32_max →
  reachable_from (create s tbl).2 tbl' →
  ∃ n : nat,
    (create s tbl).1 = Symbol.mk (Z.of_nat n + 1) ∧
    dump (create s tbl).2 !! n = Some s ∧
    dump tbl' !! n = Some s ∧
    inv (create s tbl).2 ∧ inv tbl' ∧
    get tbl' (create s tbl).1
    = Returns (SymbolStr.mk (ChunkedVector.index ChunkSize n)) ∧
    str tbl' (SymbolStr.mk (ChunkedVector.index ChunkSize n)) = Some s.
Proof.
  intros Hreach Hroom Hlater.
  pose proof (reachable_inv tbl Hreach) as Hinv.
  destruct (create_spec s tbl Hinv (create_room s tbl Hinv Hroom))
    as (n & Hsym & Hn & Hinv1 & _).
  destruct (reachable_from_inv _ _ Hinv1 Hlater) as [Hinv' Hpre].
  pose proof (prefix_lookup_Some _ _ _ _ Hn Hpre) as Hn'.
  exists n. rewrite Hsym.
  destruct (get_entry tbl' n s Hinv' Hn') as [Hget Hstr].
  done.
Qed.

(** C1: for every text [s] and every state of the table, calling
    [create(s)] twice returns the same identifier both times, the second
    call leaves the table as the first one left it (no new entry), and the
    identifier is never zero.  The table has room for one more entry in
    the 32-bit identifier space. *)
Theorem create_idempotent s tbl :
  reachable tbl → Z.of_nat (size tbl) < u32_max →
  (create s (create s tbl).2).1 = (create s tbl).1 ∧
  (create s (create s tbl).2).2 = (create s tbl).2 ∧
  size (create s (create s tbl).2).2 = size (create s tbl).2 ∧
  Symbol.id (create s tbl).1 ≠ 0 ∧
  Symbol.to_bool (create s tbl).1 = true.
Proof.
  intros Hreach Hroom.
  destruct (create_then_get s tbl _ Hreach Hroom (reachable_refl _))
    as (n & Hsym & Hn & _ & Hinv1 & _).
  pose proof Hinv1 as (_ & Hsize & Hmap).
  pose proof (lookup_lt_Some _ _ _ Hn) as Hlt. rewrite <- size_dump in Hlt.
  assert (symbols (create s tbl).2 !! s
          = Some (ChunkedVector.index ChunkSize n, Z.of_nat n)) as Hin.
  { apply Hmap. by exists n. }
  assert (create s (create s tbl).2 = ((create s tbl).1, (create s tbl).2))
    as Hagain.
  { unfold create at 1. rewrite Hin, Hsym. simpl.
    by rewrite u32_small by lia. }
  rewrite Hagain, Hsym. simpl. unfold Symbol.to_bool. simpl.
  repeat split; lia.
Qed.

Lemma create_idempotent_witness :
  (create "x" (create "x" empty).2).1 = (create "x" empty).1 ∧
  (create "x" (create "x" empty).2).2 = (create "x" empty).2 ∧
  size (create "x" (create "x" empty).2).2 = size (create "x" empty).2 ∧
  Symbol.id (create "x" empty).1 ≠ 0 ∧
  Symbol.to_bool (create "x" empty).1 = true.
Proof.
  apply (create_idempotent "x" empty); [apply reachable_refl|].
  vm_compute. reflexivity.
Defined.

(** C2: for every text [s], the empty one included, and every state of
    the table, the symbol [create(s)] returns resolves to a text equal to
    [s], at once and in every later state of the table. *)
Theorem resolve_create s tbl tbl' :
  reachable tbl → Z.of_nat (size tbl) < u32_max →
  reachable_from (create s tbl).2 tbl' →
  ∃ v, get tbl' (create s tbl).1 = Returns v ∧
       str tbl' v = Some s ∧
       str_eqb tbl' v s = Some true ∧
       text tbl' (create s tbl).1 = Some s.
Proof.
  intros Hreach Hroom Hlater.
  destruct (create_then_get s tbl tbl' Hreach Hroom Hlater)
    as (n & _ & _ & _ & _ & _ & Hget & Hstr).
  eexists. split; [exact Hget|]. split; [exact Hstr|].
  unfold str_eqb, text. rewrite Hget, Hstr. simpl.
  by rewrite bool_decide_eq_true_2.
Qed.

Lemma resolve_create_witness :
  ∃ v, get (create EmptyString empty).2 (create EmptyString empty).1 = Returns v ∧
       str (create EmptyString empty).2 v = Some EmptyString ∧
       str_eqb (create EmptyString empty).2 v EmptyString = Some true ∧
       text (create EmptyString empty).2 (create EmptyString empty).1 = Some EmptyString.
Proof.
  apply (resolve_create EmptyString empty (create EmptyString empty).2).
  - apply reachable_refl.
  - vm_compute. reflexivity.
  - apply reachable_refl.
Defined.

(** C3: for distinct texts [s1] and [s2] and every state of the table,
    [create(s1)] followed by [create(s2)] returns two different
    identifiers.  The table has room for two more entries in the 32-bit
    identifier space. *)
Theorem create_distinct s1 s2 tbl :
  s1 ≠ s2 → reachable tbl → Z.of_nat (size tbl) + 1 < u32_max →
  (create s1 tbl).1 ≠ (create s2 (create s1 tbl).2).1 ∧
  Symbol.neqb (create s1 tbl).1 (create s2 (create s1 tbl).2).1 = true.
Proof.
  intros Hne Hreach Hroom.
  pose proof (reachable_inv tbl Hreach) as Hinv.
  assert (Z.of_nat (size tbl) < u32_max) as Hroom1 by lia.
  destruct (create_spec s1 tbl Hinv (create_room s1 tbl Hinv Hroom1))
    as (n1 & Hsym1 & Hn1 & Hinv1 & _ & Hold & Hnew).
  assert (Z.of_nat (size (create s1 tbl).2) < u32_max) as Hroom2.
  { destruct (symbols tbl !! s1) eqn:Hs1.
    - rewrite Hold by done. lia.
    - destruct Hnew as [_ Hdump]; [done|].
      rewrite size_dump, Hdump, length_app, <- size_dump. simpl. lia. }
  destruct (create_spec s2 _ Hinv1 (create_room s2 _ Hinv1 Hroom2))
    as (n2 & Hsym2 & Hn2 & _ & Hpre & _).
  pose proof (prefix_lookup_Some _ _ _ _ Hn1 Hpre) as Hn1'.
  assert (n1 ≠ n2) as Hn by congruence.
  rewrite Hsym1, Hsym2. unfold Symbol.neqb. simpl. split.
  - intros [= Heq]. lia.
  - apply negb_true_iff. lia.
Qed.

Lemma create_distinct_witness :
  (create "a" empty).1 ≠ (create "b" (create "a" empty).2).1 ∧
  Symbol.neqb (create "a" empty).1 (create "b" (create "a" empty).2).1 = true.
Proof.
  apply (create_distinct "a" "b" empty).
  - discriminate.
  - apply reachable_refl.
  - vm_compute. reflexivity.
Defined.

End MinimalSymbolTableClaims.

Section ResolveClaims.
Import MinimalSymbolTable.
Implicit Types (tbl : MinimalSymbolTable.t) (s : string) (sym : Symbol.t).

(** [operator[]] aborts on the two conditions of its guard and returns
    otherwise. *)
Lemma get_guard tbl sym :
  (get tbl sym = Aborts ∧
   (Symbol.id sym = 0 ∨ Symbol.id sym > Z.of_nat (size tbl))) ∨
  ((∃ v, get tbl sym = Returns v) ∧
   Symbol.id sym ≠ 0 ∧ Symbol.id sym ≤ Z.of_nat (size tbl)).
Proof.
  unfold get. fold (size tbl).
  destruct (Symbol.id sym =? 0) eqn:Hzero;
    destruct (Symbol.id sym >? Z.of_nat (size tbl)) eqn:Hbig; simpl;
    [left; split; [done|lia] .. |right].
  split; [by eexists|lia].
Qed.

(** C6: [operator[]] fails fatally (it aborts; it never throws a
    recoverable error) exactly when the identifier is zero or exceeds the
    number of interned entries; every other identifier of a table resolves
    to a stored text, and so does, in every later state of the table,
    every identifier obtained from [create]. *)
Theorem get_aborts_iff tbl sym :
  (get tbl sym = Aborts ↔
     Symbol.id sym = 0 ∨ Symbol.id sym > Z.of_nat (size tbl)) ∧
  (∀ e, get tbl sym ≠ Throws e) ∧
  (reachable tbl → 0 ≤ Symbol.id sym →
   get tbl sym ≠ Aborts →
   ∃ v s, get tbl sym = Returns v ∧ str tbl v = Some s) ∧
  (reachable tbl → Z.of_nat (size tbl) < u32_max →
   ∀ s tbl', reachable_from (create s tbl).2 tbl' →
     ∃ v, get tbl' (create s tbl).1 = Returns v ∧ str tbl' v = Some s).
Proof.
  pose proof (get_guard tbl sym) as Hguard.
  split; [|split; [|split]].
  - destruct Hguard as [[Habort Hcond]|[[v Hget] Hcond]]; [done|].
    rewrite Hget. split; [done|lia].
  - intros e. destruct Hguard as [[-> _]|[[v ->] _]]; done.
  - intros Hreach Hpos Hok.
    pose proof (reachable_inv tbl Hreach) as Hinv.
    assert (0 < Symbol.id sym ≤ Z.of_nat (size tbl)) as Hrange.
    { destruct Hguard as [[Habort _]|[_ Hcond]]; [done|lia]. }
    destruct (lookup_lt_is_Some_2 (dump tbl) (Z.to_nat (Symbol.id sym - 1)))
      as [s Hs].
    { rewrite <- size_dump. lia. }
    destruct (get_entry tbl _ s Hinv Hs) as [Hget Hstr].
    replace (Z.of_nat (Z.to_nat (Symbol.id sym - 1)) + 1)
      with (Symbol.id sym) in Hget by lia.
    destruct sym as [i]. simpl in *. eauto.
  - intros Hreach Hroom s tbl' Hlater.
    destruct (create_then_get s tbl tbl' Hreach Hroom Hlater)
      as (n & _ & _ & _ & _ & _ & Hget & Hstr).
    eauto.
Qed.

Lemma get_aborts_iff_witness :
  get (create "x" empty).2 (Symbol.mk 0) = Aborts ∧
  get (create "x" empty).2 (Symbol.mk 2) = Aborts ∧
  (∃ v s, get (create "x" empty).2 (Symbol.mk 1) = Returns v ∧
          str (create "x" empty).2 v = Some s) ∧
  (∃ v, get (create "y" (create "x" empty).2).2 (create "x" empty).1
        = Returns v ∧
        str (create "y" (create "x" empty).2).2 v = Some "x"%string).
Proof.
  assert (reachable (create "x" empty).2) as Hreach.
  { apply reachable_create; [apply reachable_refl|]. vm_compute. discriminate. }
  split; [|split; [|split]].
  - apply (get_aborts_iff (create "x" empty).2 (Symbol.mk 0)).
    left. reflexivity.
  - apply (get_aborts_iff (create "x" empty).2 (Symbol.mk 2)).
    right. vm_compute. reflexivity.
  - apply (get_aborts_iff (create "x" empty).2 (Symbol.mk 1)).
    + exact Hreach.
    + vm_compute. discriminate.
    + vm_compute. discriminate.
  - apply (get_aborts_iff empty (Symbol.mk 0)).
    + apply reachable_refl.
    + vm_compute. reflexivity.
    + apply reachable_create; [apply reachable_refl|].
      vm_compute. discriminate.
Defined.

(** The loop of [resolve] extends its result by the views of the
    symbols, in their order. *)
Lemma resolve_loop_spec tbl syms result :
  Forall (λ sym, 0 < Symbol.id sym ≤ Z.of_nat (size tbl)) syms →
  ∃ strs, resolve_loop tbl syms result = Returns (result ++ strs) ∧
          Forall2 (λ sym v, get tbl sym = Returns v) syms strs.
Proof.
  intros Hvalid. revert result.
  induction Hvalid as [|sym syms Hsym Hvalid IH]; intros result.
  - exists []. by rewrite app_nil_r.
  - simpl. destruct (get_guard tbl sym) as [[_ Hcond]|[[v Hget] _]]; [lia|].
    rewrite Hget.
    destruct (IH (result ++ [v])) as (strs & -> & Hall).
    exists (v :: strs). rewrite <- app_assoc. split; [done|].
    by constructor.
Qed.

(** C8: for every sequence of valid symbol identifiers, [resolve]
    returns a sequence of views of the same length whose i-th element is
    what [operator[]] returns for the i-th identifier. *)
Theorem resolve_order tbl syms :
  Forall (λ sym, 0 < Symbol.id sym ≤ Z.of_nat (size tbl)) syms →
  ∃ strs, resolve tbl syms = Returns strs ∧
          length strs = length syms ∧
          ∀ i sym, syms !! i = Some sym →
            ∃ v, strs !! i = Some v ∧ get tbl sym = Returns v.
Proof.
  intros Hvalid.
  destruct (resolve_loop_spec tbl syms [] Hvalid) as (strs & Hloop & Hall).
  exists strs. split; [done|]. split.
  - symmetry. by eapply Forall2_length.
  - intros i sym Hi.
    destruct (Forall2_lookup_l _ _ _ _ _ Hall Hi) as (v & Hv & Hget).
    by exists v.
Qed.

Lemma resolve_order_witness :
  let tbl := (create "b" (create "a" empty).2).2 in
  let syms := [Symbol.mk 2; Symbol.mk 1; Symbol.mk 2] in
  ∃ strs, resolve tbl syms = Returns strs ∧
          length strs = length syms ∧
          ∀ i sym, syms !! i = Some sym →
            ∃ v, strs !! i = Some v ∧ get tbl sym = Returns v.
Proof.
  intros tbl syms. apply (resolve_order tbl syms).
  repeat constructor; vm_compute; discriminate.
Defined.

(** Read as texts, the result of the batch lookup follows the order of
    the identifiers. *)
Example batch_texts_example :
  let tbl := (create "b" (create "a" empty).2).2 in
  match resolve tbl [Symbol.mk 2; Symbol.mk 1; Symbol.mk 2] with
  | Returns strs => map (str tbl) strs
  | _ => []
  end
  = [Some "b"; Some "a"; Some "b"]%string.
Proof. vm_compute. reflexivity. Qed.

(** One invalid identifier makes the batch lookup abort. *)
Example batch_invalid_example :
  resolve (create "a" empty).2 [Symbol.mk 1; Symbol.mk 0] = Aborts.
Proof. vm_compute. reflexivity. Qed.

End ResolveClaims.

(** ** The symbol table with the common symbols *)

Section SymbolTableClaims.
Import MinimalSymbolTable.

Lemma size_create s tbl :
  (size tbl ≤ size (create s tbl).2)%nat.
Proof.
  unfold create. destruct (symbols tbl !! s); [done|].
  unfold insert, size.
  pose proof (size_add ChunkSize table_ChunkSize_pos s (store tbl)) as Hadd.
  destruct (ChunkedVector.add ChunkSize s (store tbl)) as [[p idx] store'].
  simpl in *. lia.
Qed.

Lemma create_all_snoc ss s tbl :
  create_all (ss ++ [s]) tbl = (create s (create_all ss tbl)).2.
Proof. unfold create_all. by rewrite foldl_snoc. Qed.

(** Interning a list of texts leads to a reachable state, as long as the
    entries of the final table can be numbered. *)
Lemma reachable_create_all ss tbl :
  Z.of_nat (size (create_all ss tbl)) ≤ u32_max →
  reachable_from tbl (create_all ss tbl).
Proof.
  induction ss as [|s ss IH] using rev_ind; intros Hroom.
  - apply reachable_refl.
  - rewrite create_all_snoc in *.
    apply reachable_create; [|done].
    apply IH. pose proof (size_create s (create_all ss tbl)). lia.
Qed.

(** The constructor of [SymbolTable] leaves its base object in a state
    that [create] alone reaches as well: no text is inserted twice. *)
Lemma SymbolTable_reachable : reachable (SymbolTable.base SymbolTable.make).
Proof.
  replace (SymbolTable.base SymbolTable.make)
    with (create_all (dump (SymbolTable.base SymbolTable.make)) empty)
    by (vm_compute; reflexivity).
  apply reachable_create_all. vm_compute. discriminate.
Qed.

Example SymbolTable_size : size (SymbolTable.base SymbolTable.make) = 75%nat.
Proof. vm_compute. reflexivity. Qed.

(** C10: in a freshly constructed [SymbolTable], the member [logicAnd]
    resolves to the text "logicOr" and the member [logicOr] to the text
    "logicAnd"; so [create("logicAnd")] returns the member [logicOr] and
    [create("logicOr")] returns the member [logicAnd], neither adding an
    entry. *)
Theorem SymbolTable_logic_members :
  text (SymbolTable.base SymbolTable.make)
       (SymbolTable.logicAnd SymbolTable.make) = Some "logicOr"%string ∧
  text (SymbolTable.base SymbolTable.make)
       (SymbolTable.logicOr SymbolTable.make) = Some "logicAnd"%string ∧
  create "logicAnd" (SymbolTable.base SymbolTable.make)
    = (SymbolTable.logicOr SymbolTable.make,
       SymbolTable.base SymbolTable.make) ∧
  create "logicOr" (SymbolTable.base SymbolTable.make)
    = (SymbolTable.logicAnd SymbolTable.make,
       SymbolTable.base SymbolTable.make) ∧
  SymbolTable.logicAnd SymbolTable.make
    ≠ SymbolTable.logicOr SymbolTable.make.
Proof.
  split; [vm_compute; reflexivity|].
  split; [vm_compute; reflexivity|].
  split; [vm_compute; reflexivity|].
  split; [vm_compute; reflexivity|].
  vm_compute. discriminate.
Qed.

End SymbolTableClaims.

(** ** Attribute records *)

Section BindingsClaims.
Implicit Types (b : Bindings.t) (a : Attr.t) (st : EvalState.t).

#[local] Instance Attr_le_total : Total Attr.le.
Proof.
  intros a1 a2. unfold Attr.le, Attr.lt, Symbol.lt.
  destruct (Z.ltb_spec (Symbol.id (Attr.name a2)) (Symbol.id (Attr.name a1)));
    [right|left]; lia.
Qed.

#[local] Instance Attr_le_trans : Transitive Attr.le.
Proof.
  intros a1 a2 a3. unfold Attr.le, Attr.lt, Symbol.lt. lia.
Qed.

Lemma Attr_le_id a1 a2 :
  Attr.le a1 a2 ↔ Symbol.id (Attr.name a1) ≤ Symbol.id (Attr.name a2).
Proof. unfold Attr.le, Attr.lt, Symbol.lt. lia. Qed.

Lemma StronglySorted_lookup {A} (R : relation A) (l : list A) i j x y :
  StronglySorted R l → (i < j)%nat →
  l !! i = Some x → l !! j = Some y → R x y.
Proof.
  intros Hsorted. revert i j.
  induction Hsorted as [|z l Hsorted IH Hall]; intros i j Hij Hi Hj; [done|].
  destruct j as [|j]; [lia|]. destruct i as [|i]; simpl in *.
  - injection Hi as ->. by eapply Forall_lookup_1.
  - apply (IH i j); [lia|done..].
Qed.

Lemma std_sort_perm (l : list Attr.t) : Bindings.std_sort l ≡ₚ l.
Proof. apply merge_sort_Permutation. Qed.

Lemma std_sort_sorted (l : list Attr.t) :
  StronglySorted Attr.le (Bindings.std_sort l).
Proof. apply StronglySorted_merge_sort; apply _. Qed.

Lemma sort_attrs b :
  Bindings.attrs (Bindings.sort b) ≡ₚ Bindings.attrs b ∧
  StronglySorted Attr.le (Bindings.attrs (Bindings.sort b)) ∧
  Bindings.capacity_ (Bindings.sort b) = Bindings.capacity_ b.
Proof.
  unfold Bindings.sort, Bindings.size.
  destruct (Bindings.attrs b) as [|a l] eqn:Hattrs; simpl.
  - rewrite Hattrs. repeat split; [done|constructor].
  - repeat split; [apply std_sort_perm|apply std_sort_sorted].
Qed.

(** C7: [sort] sorts the attributes of a record in place by symbol
    identifier and does nothing when the record's size is zero; if the
    symbol identifiers of the record are pairwise distinct, iterating the
    sorted record front to back meets strictly increasing identifiers; the
    size, the capacity and the (symbol, value, position) triples of the
    record are those from before the call. *)
Theorem sort_spec b :
  (Bindings.size b = 0 → Bindings.sort b = b) ∧
  Bindings.size (Bindings.sort b) = Bindings.size b ∧
  Bindings.capacity_ (Bindings.sort b) = Bindings.capacity_ b ∧
  Bindings.attrs (Bindings.sort b) ≡ₚ Bindings.attrs b ∧
  (∀ a, a ∈ Bindings.attrs (Bindings.sort b) ↔ a ∈ Bindings.attrs b) ∧
  (∀ (i j : nat) a1 a2, (i < j)%nat →
     Bindings.attrs (Bindings.sort b) !! i = Some a1 →
     Bindings.attrs (Bindings.sort b) !! j = Some a2 →
     Symbol.id (Attr.name a1) ≤ Symbol.id (Attr.name a2)) ∧
  (NoDup ((λ a, Symbol.id (Attr.name a)) <$> Bindings.attrs b) →
   ∀ (i j : nat) a1 a2, (i < j)%nat →
     Bindings.attrs (Bindings.sort b) !! i = Some a1 →
     Bindings.attrs (Bindings.sort b) !! j = Some a2 →
     Symbol.id (Attr.name a1) < Symbol.id (Attr.name a2)) ∧
  (∀ st p, EvalState.deref st p = Some b →
     ∃ st', EvalState.sort p st = (Returns tt, st') ∧
            EvalState.deref st' p = Some (Bindings.sort b)).
Proof.
  destruct (sort_attrs b) as (Hperm & Hsorted & Hcap).
  assert (∀ (i j : nat) a1 a2, (i < j)%nat →
     Bindings.attrs (Bindings.sort b) !! i = Some a1 →
     Bindings.attrs (Bindings.sort b) !! j = Some a2 →
     Symbol.id (Attr.name a1) ≤ Symbol.id (Attr.name a2)) as Hle.
  { intros i j a1 a2 Hij Hi Hj. apply Attr_le_id.
    by eapply StronglySorted_lookup. }
  split; [|split; [|split; [|split; [|split; [|split; [|split]]]]]].
  - unfold Bindings.sort. by intros ->.
  - unfold Bindings.size. by rewrite Hperm.
  - done.
  - done.
  - intros a. by rewrite Hperm.
  - done.
  - intros Hdistinct i j a1 a2 Hij Hi Hj.
    pose proof (Hle i j a1 a2 Hij Hi Hj) as Hle12.
    rewrite <- Hperm in Hdistinct.
    assert (Symbol.id (Attr.name a1) ≠ Symbol.id (Attr.name a2)); [|lia].
    intros Heq.
    assert (i = j); [|lia].
    eapply (NoDup_lookup _ i j); [exact Hdistinct|..].
    + rewrite list_lookup_fmap, Hi. simpl. reflexivity.
    + rewrite list_lookup_fmap, Hj. simpl. by rewrite Heq.
  - intros st p Hp. unfold EvalState.sort. rewrite Hp.
    eexists. split; [reflexivity|].
    destruct p as [|addr]; simpl in *; [done|].
    apply list_lookup_insert_eq. by eapply lookup_lt_Some.
Qed.

Lemma sort_spec_witness :
  let b := Bindings.mk 4 [Attr.mk (Symbol.mk 3) 0%nat 7;
                          Attr.mk (Symbol.mk 1) 1%nat 8;
                          Attr.mk (Symbol.mk 2) 2%nat 9] in
  Bindings.sort (Bindings.make 0) = Bindings.make 0 ∧
  (∀ (i j : nat) a1 a2, (i < j)%nat →
     Bindings.attrs (Bindings.sort b) !! i = Some a1 →
     Bindings.attrs (Bindings.sort b) !! j = Some a2 →
     Symbol.id (Attr.name a1) < Symbol.id (Attr.name a2)).
Proof.
  intros b. split.
  - apply (sort_spec (Bindings.make 0)). reflexivity.
  - apply (sort_spec b).
    apply (bool_decide_unpack _). vm_compute. exact I.
Defined.

Example sort_three_example :
  Bindings.sort (Bindings.mk 4 [Attr.mk (Symbol.mk 3) 0%nat 7;
                                Attr.mk (Symbol.mk 1) 1%nat 8;
                                Attr.mk (Symbol.mk 2) 2%nat 9])
  = Bindings.mk 4 [Attr.mk (Symbol.mk 1) 1%nat 8;
                   Attr.mk (Symbol.mk 2) 2%nat 9;
                   Attr.mk (Symbol.mk 3) 0%nat 7].
Proof. vm_compute. reflexivity. Qed.

End BindingsClaims.

(** ** Allocation of attribute records *)

Section AllocationClaims.
Import EvalState.
Implicit Types (st : EvalState.t) (size_t_max capacity : Z).

(** C4: every call of [allocBindings] with capacity 0 returns the address
    of the one shared empty record, the same address in every state and
    for every limit, and leaves the evaluator as it was: nothing is
    allocated and the two counters keep their values. *)
Theorem allocBindings_zero size_t_max st :
  allocBindings size_t_max 0 st = (Returns EmptyBindings, st) ∧
  deref st EmptyBindings = Some (emptyBindings st) ∧
  (∀ size_t_max' st',
     (allocBindings size_t_max' 0 st').1 = (allocBindings size_t_max 0 st).1) ∧
  heap (allocBindings size_t_max 0 st).2 = heap st ∧
  nrAttrsets (allocBindings size_t_max 0 st).2 = nrAttrsets st ∧
  nrAttrsInAttrsets (allocBindings size_t_max 0 st).2 = nrAttrsInAttrsets st.
Proof. repeat split. Qed.

(** The shared empty record is the same object after any number of
    allocations in between. *)
Example empty_record_shared_example :
  let st0 := EvalState.make MinimalSymbolTable.empty in
  let r1 := allocBindings 10 0 st0 in
  let r2 := allocBindings 10 3 r1.2 in
  let r3 := allocBindings 10 0 r2.2 in
  r1.1 = Returns EmptyBindings ∧ r2.1 = Returns (Allocated 0) ∧
  r3.1 = Returns EmptyBindings ∧
  deref r3.2 EmptyBindings = deref st0 EmptyBindings.
Proof. vm_compute. repeat split. Qed.

(** C5: a capacity beyond the maximum record size makes [allocBindings]
    throw the size-limit error, which carries the requested size, and
    leaves the evaluator as it was: nothing allocated, both counters
    unchanged.  A capacity from 1 up to the maximum makes it return the
    address of a new record of that capacity, counts one more record and
    [capacity] more attribute slots, and changes nothing else. *)
Theorem allocBindings_limit size_t_max capacity st :
  0 ≤ size_t_max →
  (size_t_max < capacity →
   allocBindings size_t_max capacity st
   = (Throws (mkError "attribute set of size %d is too big" capacity), st)) ∧
  (1 ≤ capacity ≤ size_t_max →
   ∃ addr st',
     allocBindings size_t_max capacity st = (Returns (Allocated addr), st') ∧
     nrAttrsets st' = nrAttrsets st + 1 ∧
     nrAttrsInAttrsets st' = nrAttrsInAttrsets st + capacity ∧
     deref st (Allocated addr) = None ∧
     deref st' (Allocated addr) = Some (Bindings.make capacity) ∧
     heap st' = heap st ++ [Bindings.make capacity] ∧
     symbols st' = symbols st ∧
     emptyBindings st' = emptyBindings st ∧
     valueCells st' = valueCells st).
Proof.
  intros Hmax. unfold allocBindings. split.
  - intros Hbig.
    replace (capacity =? 0) with false by lia.
    replace (capacity >? size_t_max) with true by lia.
    reflexivity.
  - intros Hrange.
    replace (capacity =? 0) with false by lia.
    replace (capacity >? size_t_max) with false by lia.
    exists (length (heap st)). eexists. split; [reflexivity|]. simpl.
    repeat split.
    + by apply lookup_ge_None_2.
    + by rewrite list_lookup_middle.
Qed.

Lemma allocBindings_limit_witness :
  let st := EvalState.make MinimalSymbolTable.empty in
  allocBindings 5 6 st
  = (Throws (mkError "attribute set of size %d is too big" 6), st) ∧
  ∃ addr st',
    allocBindings 5 5 st = (Returns (Allocated addr), st') ∧
    nrAttrsets st' = nrAttrsets st + 1 ∧
    nrAttrsInAttrsets st' = nrAttrsInAttrsets st + 5 ∧
    deref st (Allocated addr) = None ∧
    deref st' (Allocated addr) = Some (Bindings.make 5) ∧
    heap st' = heap st ++ [Bindings.make 5] ∧
    symbols st' = symbols st ∧
    emptyBindings st' = emptyBindings st ∧
    valueCells st' = valueCells st.
Proof.
  intros st. split.
  - apply (allocBindings_limit 5 6 st); lia.
  - apply (allocBindings_limit 5 5 st); lia.
Defined.

End AllocationClaims.

(** ** The scenario of the specification *)

Section ScenarioClaims.
Import EvalState.

(** C9: on a freshly constructed table, [create("foo")] returns
    identifier 1, then [create("bar")] returns 2, then [create("foo")]
    returns 1 again; a record then opened with capacity 2, given a slot
    for "bar" and one for "foo", and finished, is a record of size 2 whose
    entries are, in order, (1, "foo") and (2, "bar").  The maximum record
    size is at least 2. *)
Theorem scenario_result (size_t_max : Z) :
  2 ≤ size_t_max →
  ∃ p st b,
    Scenario.run size_t_max (EvalState.make MinimalSymbolTable.empty)
    = (Returns (Symbol.mk 1, Symbol.mk 2, Symbol.mk 1, p), st) ∧
    deref st p = Some b ∧
    Bindings.size b = 2 ∧
    Scenario.entries st b = [(1, Some "foo"); (2, Some "bar")]%string ∧
    MinimalSymbolTable.dump (symbols st) = ["foo"; "bar"]%string.
Proof.
  intros Hmax.
  assert ((2 >? size_t_max) = false) as Hfits by lia.
  unfold Scenario.run, BindingsBuilder.open, allocBindings.
  rewrite Hfits.
  eexists _, _, _. split; [vm_compute; reflexivity|].
  split; [vm_compute; reflexivity|].
  vm_compute. repeat split.
Qed.

Lemma scenario_result_witness :
  ∃ p st b,
    Scenario.run u32_max (EvalState.make MinimalSymbolTable.empty)
    = (Returns (Symbol.mk 1, Symbol.mk 2, Symbol.mk 1, p), st) ∧
    deref st p = Some b ∧
    Bindings.size b = 2 ∧
    Scenario.entries st b = [(1, Some "foo"); (2, Some "bar")]%string ∧
    MinimalSymbolTable.dump (symbols st) = ["foo"; "bar"]%string.
Proof.
  apply (scenario_result u32_max). vm_compute. discriminate.
Defined.

(** Before [finish], the record holds the attributes in the order they
    were declared: "bar" (identifier 2) first. *)
Example builder_declaration_order_example :
  let prog :=
    _ ← symbols_create "foo";
    _ ← symbols_create "bar";
    bb ← BindingsBuilder.open 2 2;
    _ ← BindingsBuilder.alloc_name bb "bar" noPos;
    _ ← BindingsBuilder.alloc_name bb "foo" noPos;
    mret (BindingsBuilder.bindings bb) in
  let st := (prog (EvalState.make MinimalSymbolTable.empty)).2 in
  Scenario.entries st <$> deref st (Allocated 0)
  = Some [(2, Some "bar"); (1, Some "foo")]%string.
Proof. vm_compute. reflexivity. Qed.

(** In an evaluator whose table is the one with the common symbols, the
    same calls number the two texts after the 75 members. *)
Example scenario_common_symbols_example :
  (Scenario.run u32_max
     (EvalState.make (SymbolTable.base SymbolTable.make))).1
  = Returns (Symbol.mk 76, Symbol.mk 77, Symbol.mk 76, Allocated 0).
Proof. vm_compute. reflexivity. Qed.

(** A third slot exceeds the declared capacity: the call aborts. *)
Example builder_over_capacity_example :
  let prog :=
    bb ← BindingsBuilder.open 2 1;
    _ ← BindingsBuilder.alloc_name bb "bar" noPos;
    BindingsBuilder.alloc_name bb "foo" noPos in
  (prog (EvalState.make MinimalSymbolTable.empty)).1 = Aborts.
Proof. vm_compute. reflexivity. Qed.

End ScenarioClaims.

(** * Further properties of the symbol table *)

Section SymbolTableInvariants.
Import MinimalSymbolTable.
Implicit Types (tbl : MinimalSymbolTable.t) (s : string) (sym : Symbol.t).

(** No text is stored twice. *)
Lemma dump_inj tbl (n m : nat) s :
  inv tbl → dump tbl !! n = Some s → dump tbl !! m = Some s → n = m.
Proof.
  intros (_ & _ & Hmap) Hn Hm.
  assert (symbols tbl !! s
          = Some (ChunkedVector.index ChunkSize n, Z.of_nat n)) as Hsn.
  { apply Hmap. by exists n. }
  assert (symbols tbl !! s
          = Some (ChunkedVector.index ChunkSize m, Z.of_nat m)) as Hsm.
  { apply Hmap. by exists m. }
  assert (Z.of_nat n = Z.of_nat m) by congruence. lia.
Qed.

Lemma dump_symbols tbl s :
  inv tbl → s ∈ dump tbl ↔ is_Some (symbols tbl !! s).
Proof.
  intros (_ & _ & Hmap). rewrite list_elem_of_lookup. split.
  - intros [n Hn]. eexists. apply Hmap. by exists n.
  - intros [[p i] Hs]. apply Hmap in Hs as (n & _ & _ & Hn). by exists n.
Qed.

(** [operator[]] needs only a well-shaped store to find an entry. *)
Lemma get_entry_wf tbl (n : nat) s :
  ChunkedVector.wf ChunkSize (store tbl) →
  Z.of_nat (size tbl) ≤ u32_max →
  dump tbl !! n = Some s →
  text tbl (Symbol.mk (Z.of_nat n + 1)) = Some s.
Proof.
  intros Hwf Hsize Hn.
  pose proof (lookup_lt_Some _ _ _ Hn) as Hlt. rewrite <- size_dump in Hlt.
  unfold text, get, str. simpl. fold (size tbl).
  replace (Z.of_nat n + 1 =? 0) with false by lia.
  replace (Z.of_nat n + 1 >? Z.of_nat (size tbl)) with false by lia.
  simpl. rewrite u32_small by lia.
  replace (Z.to_nat (Z.of_nat n + 1 - 1)) with n by lia.
  rewrite deref_index; [done|apply table_ChunkSize_pos|done].
Qed.

(** A valid identifier names the entry before it in the store. *)
Lemma valid_entry tbl sym :
  inv tbl → valid tbl sym →
  ∃ (n : nat) s, sym = Symbol.mk (Z.of_nat n + 1) ∧
                 dump tbl !! n = Some s ∧
                 get tbl sym
                 = Returns (SymbolStr.mk (ChunkedVector.index ChunkSize n)) ∧
                 str tbl (SymbolStr.mk (ChunkedVector.index ChunkSize n))
                 = Some s ∧
                 text tbl sym = Some s.
Proof.
  intros Hinv [Hpos Hle]. destruct sym as [i]. simpl in *.
  destruct (lookup_lt_is_Some_2 (dump tbl) (Z.to_nat (i - 1))) as [s Hs].
  { rewrite <- size_dump. lia. }
  destruct (get_entry tbl _ s Hinv Hs) as [Hget Hstr].
  exists (Z.to_nat (i - 1)), s.
  replace (Z.of_nat (Z.to_nat (i - 1)) + 1) with i in * by lia.
  repeat split; try done.
  unfold text. by rewrite Hget.
Qed.

(** An entry of a table is an entry of every later state, and an
    identifier valid in a table is valid later. *)
Lemma later_entry tbl tbl' (n : nat) s :
  inv tbl → reachable_from tbl tbl' → dump tbl !! n = Some s →
  inv tbl' ∧ dump tbl' !! n = Some s ∧ (size tbl ≤ size tbl')%nat.
Proof.
  intros Hinv Hlater Hn.
  destruct (reachable_from_inv tbl tbl' Hinv Hlater) as [Hinv' Hpre].
  split; [done|]. split; [by eapply prefix_lookup_Some|].
  rewrite !size_dump. by apply prefix_length.
Qed.

End SymbolTableInvariants.

Section SymbolTableExtras.
Import MinimalSymbolTable.
Implicit Types (tbl : MinimalSymbolTable.t) (s : string) (sym : Symbol.t).

(** X1: in a table, two valid symbols are equal exactly when their texts
    are equal: the table stores only one copy of each text, so comparing
    identifiers compares texts. *)
Theorem symbols_equal_iff_texts tbl (a b : Symbol.t) :
  reachable tbl → valid tbl a → valid tbl b →
  is_Some (text tbl a) ∧
  (Symbol.eqb a b = true ↔ text tbl a = text tbl b) ∧
  (Symbol.neqb a b = true ↔ text tbl a ≠ text tbl b) ∧
  (a = b ↔ text tbl a = text tbl b).
Proof.
  intros Hreach Ha Hb. pose proof (reachable_inv tbl Hreach) as Hinv.
  destruct (valid_entry tbl a Hinv Ha) as (n & sa & -> & Hn & _ & _ & Hta).
  destruct (valid_entry tbl b Hinv Hb) as (m & sb & -> & Hm & _ & _ & Htb).
  rewrite Hta, Htb. unfold Symbol.eqb, Symbol.neqb. simpl.
  assert (sa = sb ↔ n = m) as Hiff.
  { split.
    - intros <-. by eapply dump_inj.
    - intros <-. congruence. }
  split; [by eexists|]. split; [|split].
  - rewrite Z.eqb_eq. split.
    + intros Heq. f_equal. apply Hiff. lia.
    + intros [= Heq]. apply Hiff in Heq. lia.
  - rewrite negb_true_iff, Z.eqb_neq. split.
    + intros Hne [= Heq]. apply Hiff in Heq. lia.
    + intros Hne Heq. apply Hne. f_equal. apply Hiff. lia.
  - split.
    + intros [= Heq]. f_equal. apply Hiff. lia.
    + intros [= Heq]. apply Hiff in Heq. by subst.
Qed.

Lemma symbols_equal_iff_texts_witness :
  let tbl := (create "b" (create "a" empty).2).2 in
  is_Some (text tbl (Symbol.mk 1)) ∧
  (Symbol.eqb (Symbol.mk 1) (Symbol.mk 2) = true
   ↔ text tbl (Symbol.mk 1) = text tbl (Symbol.mk 2)) ∧
  (Symbol.neqb (Symbol.mk 1) (Symbol.mk 2) = true
   ↔ text tbl (Symbol.mk 1) ≠ text tbl (Symbol.mk 2)) ∧
  (Symbol.mk 1 = Symbol.mk 2
   ↔ text tbl (Symbol.mk 1) = text tbl (Symbol.mk 2)).
Proof.
  intros tbl.
  apply (symbols_equal_iff_texts tbl (Symbol.mk 1) (Symbol.mk 2)).
  - apply reachable_create;
      [apply reachable_create; [apply reachable_refl|]|];
      vm_compute; discriminate.
  - vm_compute. split; [reflexivity|discriminate].
  - vm_compute. split; [reflexivity|discriminate].
Defined.

(** X2: interning the text of a valid symbol gives that symbol back and
    leaves the table as it is. *)
Theorem create_of_text tbl sym :
  reachable tbl → valid tbl sym →
  ∃ s, text tbl sym = Some s ∧ create s tbl = (sym, tbl).
Proof.
  intros Hreach Hsym. pose proof (reachable_inv tbl Hreach) as Hinv.
  destruct (valid_entry tbl sym Hinv Hsym) as (n & s & -> & Hn & _ & _ & Ht).
  exists s. split; [done|].
  pose proof Hinv as (_ & Hsize & Hmap).
  pose proof (lookup_lt_Some _ _ _ Hn) as Hlt. rewrite <- size_dump in Hlt.
  assert (symbols tbl !! s
          = Some (ChunkedVector.index ChunkSize n, Z.of_nat n)) as Hin.
  { apply Hmap. by exists n. }
  unfold create. rewrite Hin. simpl. by rewrite u32_small by lia.
Qed.

Lemma create_of_text_witness :
  ∃ s, text (create "a" empty).2 (Symbol.mk 1) = Some s ∧
       create s (create "a" empty).2 = (Symbol.mk 1, (create "a" empty).2).
Proof.
  apply (create_of_text (create "a" empty).2 (Symbol.mk 1)).
  - apply reachable_create; [apply reachable_refl|].
    vm_compute. discriminate.
  - vm_compute. split; [reflexivity|discriminate].
Defined.

(** X3: the identifier of a text is fixed for the lifetime of the table:
    whatever is interned in between, a later [create] of the same text
    returns the identifier of the first one and adds nothing. *)
Theorem create_later_same s tbl tbl' :
  reachable tbl → Z.of_nat (size tbl) < u32_max →
  reachable_from (create s tbl).2 tbl' →
  create s tbl' = ((create s tbl).1, tbl').
Proof.
  intros Hreach Hroom Hlater.
  destruct (create_then_get s tbl tbl' Hreach Hroom Hlater)
    as (n & Hsym & _ & Hn & _ & Hinv' & _).
  pose proof Hinv' as (_ & Hsize & Hmap).
  pose proof (lookup_lt_Some _ _ _ Hn) as Hlt. rewrite <- size_dump in Hlt.
  assert (symbols tbl' !! s
          = Some (ChunkedVector.index ChunkSize n, Z.of_nat n)) as Hin.
  { apply Hmap. by exists n. }
  rewrite Hsym. unfold create at 1. rewrite Hin. simpl.
  by rewrite u32_small by lia.
Qed.

Lemma create_later_same_witness :
  create "a" (create "b" (create "a" empty).2).2
  = ((create "a" empty).1, (create "b" (create "a" empty).2).2).
Proof.
  apply (create_later_same "a" empty).
  - apply reachable_refl.
  - vm_compute. reflexivity.
  - apply reachable_create; [apply reachable_refl|].
    vm_compute. discriminate.
Defined.

(** X4: a valid symbol stays valid while the table grows, [operator[]]
    keeps returning the same view for it, and the view keeps reading the
    same text. *)
Theorem text_later_same tbl tbl' sym :
  reachable tbl → reachable_from tbl tbl' → valid tbl sym →
  valid tbl' sym ∧
  get tbl' sym = get tbl sym ∧
  text tbl' sym = text tbl sym ∧
  ∃ v s, get tbl sym = Returns v ∧ str tbl v = Some s ∧ str tbl' v = Some s.
Proof.
  intros Hreach Hlater Hsym. pose proof (reachable_inv tbl Hreach) as Hinv.
  destruct (valid_entry tbl sym Hinv Hsym)
    as (n & s & Heq & Hn & Hget & Hstr & Ht).
  destruct (later_entry tbl tbl' n s Hinv Hlater Hn) as (Hinv' & Hn' & Hle).
  assert (valid tbl' sym) as Hsym'.
  { unfold valid in *. lia. }
  destruct (valid_entry tbl' sym Hinv' Hsym')
    as (n' & s' & Heq' & Hn2 & Hget' & Hstr' & Ht').
  assert (n' = n) as -> by (rewrite Heq in Heq'; injection Heq'; lia).
  assert (s' = s) as -> by congruence.
  split; [done|]. split; [congruence|]. split; [congruence|].
  by exists (SymbolStr.mk (ChunkedVector.index ChunkSize n)), s.
Qed.

Lemma text_later_same_witness :
  let tbl := (create "a" empty).2 in
  let tbl' := (create "b" tbl).2 in
  valid tbl' (Symbol.mk 1) ∧
  get tbl' (Symbol.mk 1) = get tbl (Symbol.mk 1) ∧
  text tbl' (Symbol.mk 1) = text tbl (Symbol.mk 1) ∧
  ∃ v s, get tbl (Symbol.mk 1) = Returns v ∧
         str tbl v = Some s ∧ str tbl' v = Some s.
Proof.
  intros tbl tbl'. apply (text_later_same tbl tbl' (Symbol.mk 1)).
  - apply reachable_create; [apply reachable_refl|].
    vm_compute. discriminate.
  - apply reachable_create; [apply reachable_refl|].
    vm_compute. discriminate.
  - vm_compute. split; [reflexivity|discriminate].
Defined.

End SymbolTableExtras.

Section SymbolTableEnumeration.
Import MinimalSymbolTable.
Implicit Types (tbl : MinimalSymbolTable.t) (s : string) (sym : Symbol.t).

Lemma dump_NoDup tbl : inv tbl → NoDup (dump tbl).
Proof.
  intros Hinv. apply NoDup_alt. intros i j s Hi Hj. by eapply dump_inj.
Qed.

(** X5: [dump] hands each interned text to the callback exactly once: no
    text occurs twice, the texts are those [create] finds in the table,
    and there are [size()] of them. *)
Theorem dump_each_once tbl :
  reachable tbl →
  NoDup (dump tbl) ∧
  length (dump tbl) = size tbl ∧
  (∀ s, s ∈ dump tbl ↔ create s tbl = ((create s tbl).1, tbl)) ∧
  (∀ s, s ∈ dump tbl ↔ is_Some (symbols tbl !! s)).
Proof.
  intros Hreach. pose proof (reachable_inv tbl Hreach) as Hinv.
  split; [by apply dump_NoDup|]. split; [done|]. split.
  - intros s. rewrite dump_symbols by done. split.
    + intros [it Hs]. unfold create. by rewrite Hs.
    + intros Heq. destruct (symbols tbl !! s) as [it|] eqn:Hs; [by eexists|].
      exfalso.
      assert (size (create s tbl).2 = size tbl) as Hsame by (by rewrite Heq).
      unfold create in Hsame. rewrite Hs in Hsame.
      unfold insert, size in Hsame.
      pose proof (size_add ChunkSize table_ChunkSize_pos s (store tbl)) as Hadd.
      destruct (ChunkedVector.add ChunkSize s (store tbl)) as [[p idx] store'].
      simpl in *. lia.
  - intros s. by apply dump_symbols.
Qed.

Lemma dump_each_once_witness :
  let tbl := (create "a" (create "b" (create "a" empty).2).2).2 in
  NoDup (dump tbl) ∧
  length (dump tbl) = size tbl ∧
  (∀ s, s ∈ dump tbl ↔ create s tbl = ((create s tbl).1, tbl)) ∧
  (∀ s, s ∈ dump tbl ↔ is_Some (symbols tbl !! s)).
Proof.
  intros tbl. apply (dump_each_once tbl).
  repeat (apply reachable_create; [|vm_compute; discriminate]).
  apply reachable_refl.
Defined.

Lemma remove_dups_cons_in {A} `{EqDecision A} (x : A) (l : list A) :
  x ∈ l → remove_dups (x :: l) = remove_dups l.
Proof. intros Hin. simpl. by destruct (decide_rel _ x l). Qed.

Lemma remove_dups_cons_out {A} `{EqDecision A} (x : A) (l : list A) :
  x ∉ l → remove_dups (x :: l) = x :: remove_dups l.
Proof. intros Hout. simpl. by destruct (decide_rel _ x l). Qed.

(** The texts a run of [create] leaves in the store: the old ones, then
    each new text at its first occurrence. *)
Lemma create_all_dump ss tbl :
  inv tbl → Z.of_nat (size tbl + length ss) ≤ u32_max →
  inv (create_all ss tbl) ∧
  reachable_from tbl (create_all ss tbl) ∧
  (size (create_all ss tbl) ≤ size tbl + length ss)%nat ∧
  dump (create_all ss tbl)
  = dump tbl ++ reverse (remove_dups (reverse
                  (filter (λ s, s ∉ dump tbl) ss))).
Proof.
  intros Hinv. induction ss as [|s ss IH] using rev_ind; intros Hroom.
  - simpl. rewrite app_nil_r.
    split; [done|]. split; [apply reachable_refl|]. split; [lia|done].
  - rewrite length_app in Hroom. simpl in Hroom.
    destruct IH as (IHinv & IHreach & IHsize & IHdump); [lia|].
    rewrite create_all_snoc.
    assert (Z.of_nat (size (create_all ss tbl)) < u32_max) as Hroom' by lia.
    pose proof (create_room s _ IHinv Hroom') as Hfits.
    destruct (create_spec s _ IHinv Hfits)
      as (n & _ & _ & Hinv' & _ & Hold & Hnew).
    split; [done|]. split; [by apply reachable_create|].
    rewrite filter_app, reverse_app. simpl.
    destruct (symbols (create_all ss tbl) !! s) as [it|] eqn:Hs.
    + rewrite Hold by done. split; [rewrite length_app; simpl; lia|].
      assert (s ∈ dump (create_all ss tbl)) as Hin.
      { apply dump_symbols; [done|by eexists]. }
      rewrite IHdump. f_equal. f_equal.
      rewrite filter_cons, filter_nil.
      destruct (decide (s ∉ dump tbl)) as [Hout|_]; [|done].
      rewrite reverse_singleton. cbn [app].
      rewrite remove_dups_cons_in; [done|].
      rewrite IHdump in Hin. apply elem_of_app in Hin as [?|Hin]; [done|].
      by rewrite elem_of_reverse, elem_of_remove_dups in Hin.
    + destruct Hnew as [_ Hdump]; [done|].
      split.
      { rewrite size_dump, Hdump, !length_app, <- size_dump. simpl. lia. }
      assert (s ∉ dump (create_all ss tbl)) as Hout.
      { rewrite dump_symbols by done. rewrite Hs. by intros [? [=]]. }
      rewrite Hdump, IHdump, <- app_assoc. f_equal.
      rewrite IHdump in Hout. apply not_elem_of_app in Hout as [Hout1 Hout2].
      rewrite filter_cons, filter_nil. rewrite decide_True by done.
      rewrite reverse_singleton. cbn [app].
      rewrite remove_dups_cons_out; [by rewrite reverse_cons|].
      intros Hin. apply Hout2.
      by rewrite elem_of_reverse, elem_of_remove_dups.
Qed.

Lemma filter_not_in_empty (ss : list string) :
  filter (λ s, s ∉ dump empty) ss = ss.
Proof.
  induction ss as [|s ss IH]; [done|].
  rewrite filter_cons_True by apply not_elem_of_nil. by f_equal.
Qed.

(** X6: a fresh table that interns a list of texts in turn enumerates the
    distinct texts of the list, each at the place of its first occurrence,
    and its size is their number. *)
Theorem dump_first_occurrences ss :
  Z.of_nat (length ss) ≤ u32_max →
  dump (create_all ss empty) = reverse (remove_dups (reverse ss)) ∧
  size (create_all ss empty) = length (remove_dups ss) ∧
  reachable (create_all ss empty).
Proof.
  intros Hroom.
  destruct (create_all_dump ss empty inv_empty) as (_ & Hreach & _ & Hdump).
  { simpl. lia. }
  rewrite filter_not_in_empty in Hdump. simpl in Hdump.
  split; [done|]. split; [|done].
  rewrite size_dump, Hdump, length_reverse.
  apply Permutation_length. apply NoDup_Permutation.
  - apply NoDup_remove_dups.
  - apply NoDup_remove_dups.
  - intros s. rewrite !elem_of_remove_dups. apply elem_of_reverse.
Qed.

Lemma dump_first_occurrences_witness :
  dump (create_all ["b"; "a"; "b"; "c"; "a"] empty)
  = reverse (remove_dups (reverse ["b"; "a"; "b"; "c"; "a"]%string)) ∧
  size (create_all ["b"; "a"; "b"; "c"; "a"] empty)
  = length (remove_dups ["b"; "a"; "b"; "c"; "a"]%string) ∧
  reachable (create_all ["b"; "a"; "b"; "c"; "a"] empty).
Proof.
  apply (dump_first_occurrences ["b"; "a"; "b"; "c"; "a"]%string).
  vm_compute. discriminate.
Defined.

Example dump_first_occurrences_example :
  dump (create_all ["b"; "a"; "b"; "c"; "a"] empty) = ["b"; "a"; "c"]%string.
Proof. vm_compute. reflexivity. Qed.

(** X7: a text that is not in the table gets the next identifier, one
    more than the size, which [operator<] ranks above every symbol that
    was valid before; the table grows by this one entry, at the end. *)
Theorem create_new_is_next s tbl :
  reachable tbl → Z.of_nat (size tbl) < u32_max → s ∉ dump tbl →
  Symbol.id (create s tbl).1 = Z.of_nat (size tbl) + 1 ∧
  size (create s tbl).2 = S (size tbl) ∧
  dump (create s tbl).2 = dump tbl ++ [s] ∧
  ∀ sym, valid tbl sym → Symbol.lt sym (create s tbl).1 = true.
Proof.
  intros Hreach Hroom Hout. pose proof (reachable_inv tbl Hreach) as Hinv.
  assert (symbols tbl !! s = None) as Hs.
  { rewrite dump_symbols in Hout by done.
    by destruct (symbols tbl !! s); [destruct Hout; eexists|]. }
  destruct (insert_spec s tbl Hinv Hs Hroom) as (tbl' & Hins & _ & Hdump).
  unfold create. rewrite Hs, Hins. simpl.
  split; [done|]. split.
  { rewrite size_dump, Hdump, length_app, <- size_dump. simpl. lia. }
  split; [done|].
  intros sym [_ Hle]. unfold Symbol.lt. simpl. lia.
Qed.

Lemma create_new_is_next_witness :
  let tbl := (create "a" empty).2 in
  Symbol.id (create "b" tbl).1 = Z.of_nat (size tbl) + 1 ∧
  size (create "b" tbl).2 = S (size tbl) ∧
  dump (create "b" tbl).2 = dump tbl ++ ["b"]%string ∧
  ∀ sym, valid tbl sym → Symbol.lt sym (create "b" tbl).1 = true.
Proof.
  intros tbl. apply (create_new_is_next "b" tbl).
  - apply reachable_create; [apply reachable_refl|].
    vm_compute. discriminate.
  - vm_compute. reflexivity.
  - apply (bool_decide_unpack _). vm_compute. exact I.
Defined.

End SymbolTableEnumeration.

Section SymbolTableMisuseAndBatch.
Import MinimalSymbolTable.
Implicit Types (tbl : MinimalSymbolTable.t) (s : string) (sym : Symbol.t).

(** X8: what the caution at [insert] is about.  [insert] of a text that is
    already in the table stores a second copy under a new identifier and
    leaves [symbols] alone, so [create] keeps answering with the old
    identifier: from then on two different symbols have the same text. *)
Theorem insert_known_text s tbl :
  reachable tbl → Z.of_nat (size tbl) < u32_max → s ∈ dump tbl →
  Symbol.id (insert s tbl).1 = Z.of_nat (size tbl) + 1 ∧
  symbols (insert s tbl).2 = symbols tbl ∧
  dump (insert s tbl).2 = dump tbl ++ [s] ∧
  create s (insert s tbl).2 = ((create s tbl).1, (insert s tbl).2) ∧
  (create s tbl).1 ≠ (insert s tbl).1 ∧
  text (insert s tbl).2 (insert s tbl).1 = Some s ∧
  text (insert s tbl).2 (create s tbl).1 = Some s.
Proof.
  intros Hreach Hroom Hin. pose proof (reachable_inv tbl Hreach) as Hinv.
  pose proof Hinv as (Hwf & Hsize & Hmap).
  apply list_elem_of_lookup in Hin as [n Hn].
  pose proof (lookup_lt_Some _ _ _ Hn) as Hlt. rewrite <- size_dump in Hlt.
  assert (symbols tbl !! s
          = Some (ChunkedVector.index ChunkSize n, Z.of_nat n)) as Hs.
  { apply Hmap. by exists n. }
  destruct (add_spec ChunkSize table_ChunkSize_pos s (store tbl) Hwf)
    as (store' & Hadd & Hwf' & Hseq).
  assert (insert s tbl
          = (Symbol.mk (Z.of_nat (size tbl) + 1), mk (symbols tbl) store'))
    as Hins.
  { unfold insert. rewrite Hadd. fold (size tbl).
    unfold emplace. rewrite Hs. by rewrite u32_small by lia. }
  assert (create s tbl = (Symbol.mk (Z.of_nat n + 1), tbl)) as Hcreate.
  { unfold create. rewrite Hs. simpl. by rewrite u32_small by lia. }
  rewrite Hins, Hcreate. simpl.
  assert (dump (mk (symbols tbl) store') = dump tbl ++ [s]) as Hdump by done.
  assert (Z.of_nat (size (mk (symbols tbl) store')) ≤ u32_max) as Hsize'.
  { rewrite size_dump, Hdump, length_app, <- size_dump. simpl. lia. }
  split; [done|]. split; [done|]. split; [done|]. split; [|split; [|split]].
  - unfold create. simpl. rewrite Hs. simpl. by rewrite u32_small by lia.
  - intros [= Heq]. lia.
  - apply get_entry_wf; [done..|].
    rewrite Hdump, size_dump. by rewrite list_lookup_middle.
  - apply get_entry_wf; [done..|].
    rewrite Hdump. by apply lookup_app_l_Some.
Qed.

Lemma insert_known_text_witness :
  let tbl := (create "a" empty).2 in
  Symbol.id (insert "a" tbl).1 = Z.of_nat (size tbl) + 1 ∧
  symbols (insert "a" tbl).2 = symbols tbl ∧
  dump (insert "a" tbl).2 = dump tbl ++ ["a"]%string ∧
  create "a" (insert "a" tbl).2 = ((create "a" tbl).1, (insert "a" tbl).2) ∧
  (create "a" tbl).1 ≠ (insert "a" tbl).1 ∧
  text (insert "a" tbl).2 (insert "a" tbl).1 = Some "a"%string ∧
  text (insert "a" tbl).2 (create "a" tbl).1 = Some "a"%string.
Proof.
  intros tbl. apply (insert_known_text "a" tbl).
  - apply reachable_create; [apply reachable_refl|].
    vm_compute. discriminate.
  - vm_compute. reflexivity.
  - apply (bool_decide_unpack _). vm_compute. exact I.
Defined.

(** The loop of [resolve] aborts at the first identifier that
    [operator[]] refuses and returns otherwise. *)
Lemma resolve_loop_cases tbl syms result :
  (Exists (λ sym, Symbol.id sym = 0 ∨ Symbol.id sym > Z.of_nat (size tbl))
          syms ∧
   resolve_loop tbl syms result = Aborts) ∨
  (Forall (λ sym, Symbol.id sym ≠ 0 ∧ Symbol.id sym ≤ Z.of_nat (size tbl))
          syms ∧
   ∃ strs, resolve_loop tbl syms result = Returns (result ++ strs) ∧
           length strs = length syms).
Proof.
  revert result. induction syms as [|sym syms IH]; intros result.
  - right. split; [constructor|]. exists []. by rewrite app_nil_r.
  - simpl. destruct (get_guard tbl sym) as [[-> Hbad]|[[v ->] Hgood]].
    + left. split; [by constructor|done].
    + destruct (IH (result ++ [v])) as [[Hex ->]|[Hall (strs & -> & Hlen)]].
      * left. split; [by constructor|done].
      * right. split; [by constructor|].
        exists (v :: strs). rewrite <- app_assoc. simpl. by rewrite Hlen.
Qed.

(** X9: the batch lookup is all or nothing: it aborts exactly when one of
    the identifiers is zero or beyond the entries, wherever it stands in
    the sequence; otherwise it returns one view for each identifier.  It
    never throws. *)
Theorem resolve_aborts_iff tbl syms :
  (resolve tbl syms = Aborts ↔
   Exists (λ sym, Symbol.id sym = 0 ∨ Symbol.id sym > Z.of_nat (size tbl))
          syms) ∧
  (resolve tbl syms ≠ Aborts →
   ∃ strs, resolve tbl syms = Returns strs ∧ length strs = length syms) ∧
  (∀ e, resolve tbl syms ≠ Throws e).
Proof.
  unfold resolve.
  destruct (resolve_loop_cases tbl syms [])
    as [[Hex Hloop]|[Hall (strs & Hloop & Hlen)]]; rewrite Hloop.
  - split; [done|]. split; done.
  - split; [|split].
    + split; [done|]. intros Hex. exfalso.
      apply Exists_exists in Hex as (sym & Hin & Hbad).
      rewrite Forall_forall in Hall. specialize (Hall sym Hin). lia.
    + intros _. by exists strs.
    + done.
Qed.

Lemma resolve_aborts_iff_witness :
  resolve (create "a" empty).2 [Symbol.mk 1; Symbol.mk 2; Symbol.mk 1]
  = Aborts ∧
  ∃ strs, resolve (create "a" empty).2 [Symbol.mk 1; Symbol.mk 1]
          = Returns strs ∧ length strs = 2%nat.
Proof.
  split.
  - apply (resolve_aborts_iff (create "a" empty).2
             [Symbol.mk 1; Symbol.mk 2; Symbol.mk 1]).
    apply Exists_cons_tl, Exists_cons_hd. right. vm_compute. reflexivity.
  - apply (resolve_aborts_iff (create "a" empty).2 [Symbol.mk 1; Symbol.mk 1]).
    vm_compute. discriminate.
Defined.

(** One [create] adds at most one entry. *)
Lemma size_create_le s tbl :
  (size (create s tbl).2 ≤ S (size tbl))%nat.
Proof.
  unfold create. destruct (symbols tbl !! s); [simpl; lia|].
  unfold insert, size.
  pose proof (size_add ChunkSize table_ChunkSize_pos s (store tbl)) as Hadd.
  destruct (ChunkedVector.add ChunkSize s (store tbl)) as [[p idx] store'].
  simpl in *. lia.
Qed.

(** The symbols [create_list] collects are valid in the table it leaves
    and resolve there to the texts of the list, in order. *)
Lemma create_list_spec ss tbl :
  inv tbl → Z.of_nat (size tbl + length ss) ≤ u32_max →
  inv (create_list ss tbl).2 ∧
  reachable_from tbl (create_list ss tbl).2 ∧
  (size (create_list ss tbl).2 ≤ size tbl + length ss)%nat ∧
  (create_list ss tbl).2 = create_all ss tbl ∧
  Forall2 (λ sym s, valid (create_list ss tbl).2 sym ∧
                    text (create_list ss tbl).2 sym = Some s)
          (create_list ss tbl).1 ss.
Proof.
  revert tbl. induction ss as [|s ss IH]; intros tbl Hinv Hroom.
  - simpl. split; [done|]. split; [apply reachable_refl|].
    split; [lia|]. split; [done|constructor].
  - simpl in Hroom. simpl.
    pose proof (size_create_le s tbl) as Hle1.
    assert (Z.of_nat (size (create s tbl).2) ≤ u32_max) as Hfits by lia.
    destruct (create_spec s tbl Hinv Hfits)
      as (n & Hsym & Hn & Hinv1 & _).
    destruct (create s tbl) as [sym tbl1] eqn:Hcreate. simpl in *.
    destruct (IH tbl1 Hinv1) as (Hinv2 & Hreach2 & Hsize2 & Hall2 & Hsyms);
      [lia|].
    destruct (create_list ss tbl1) as [syms tbl2] eqn:Hlist. simpl in *.
    destruct (later_entry tbl1 tbl2 n s Hinv1 Hreach2 Hn)
      as (_ & Hn2 & _).
    split; [done|]. split.
    { eapply reachable_from_trans; [|exact Hreach2].
      replace tbl1 with (create s tbl).2 by (by rewrite Hcreate).
      apply reachable_create; [apply reachable_refl|].
      by rewrite Hcreate. }
    split; [lia|]. split; [done|].
    constructor; [|done]. subst sym.
    pose proof (lookup_lt_Some _ _ _ Hn2) as Hlt. rewrite <- size_dump in Hlt.
    split; [unfold valid; simpl; lia|].
    destruct (get_entry tbl2 n s Hinv2 Hn2) as [Hget Hstr].
    unfold text. by rewrite Hget.
Qed.

(** X10: a batch round trip.  The symbols obtained by interning a list of
    texts one after the other, resolved together afterwards, give views
    that read the texts of the list, in order. *)
Theorem resolve_created ss tbl :
  reachable tbl → Z.of_nat (size tbl + length ss) ≤ u32_max →
  ∃ strs,
    resolve (create_list ss tbl).2 (create_list ss tbl).1 = Returns strs ∧
    str (create_list ss tbl).2 <$> strs = Some <$> ss.
Proof.
  intros Hreach Hroom. pose proof (reachable_inv tbl Hreach) as Hinv.
  destruct (create_list_spec ss tbl Hinv Hroom) as (_ & _ & _ & _ & Hsyms).
  destruct (create_list ss tbl) as [syms tbl'] eqn:Hlist. simpl in *.
  destruct (resolve_loop_spec tbl' syms []) as (strs & Hloop & Hget).
  { eapply Forall2_Forall_l; [exact Hsyms|].
    apply Forall_forall. by intros s _ sym [Hvalid _]. }
  exists strs. split; [done|].
  clear Hloop Hlist. revert ss Hsyms Hroom.
  induction Hget as [|sym v syms strs Hv Hget IH]; intros ss Hsyms Hroom.
  - by inversion Hsyms.
  - inversion Hsyms as [|? s ? ss' [_ Htext] Hrest]; subst. simpl.
    unfold text in Htext. rewrite Hv in Htext. rewrite Htext.
    f_equal. apply IH; [done|]. simpl in Hroom. lia.
Qed.

Lemma resolve_created_witness :
  ∃ strs,
    resolve (create_list ["b"; "a"; "b"] empty).2
            (create_list ["b"; "a"; "b"] empty).1 = Returns strs ∧
    str (create_list ["b"; "a"; "b"] empty).2 <$> strs
    = Some <$> ["b"; "a"; "b"]%string.
Proof.
  apply (resolve_created ["b"; "a"; "b"]%string empty).
  - apply reachable_refl.
  - vm_compute. discriminate.
Defined.

End SymbolTableMisuseAndBatch.

Section SymbolTableFurther.
Import MinimalSymbolTable.
Implicit Types (tbl : MinimalSymbolTable.t) (s : string) (sym : Symbol.t).

(** X11: distinct texts never share an identifier, however far apart they
    are interned: whatever the table interns between [create(s1)] and
    [create(s2)], the two symbols differ when the texts do. *)
Theorem create_distinct_later s1 s2 tbl tbl' :
  s1 ≠ s2 → reachable tbl → Z.of_nat (size tbl) < u32_max →
  reachable_from (create s1 tbl).2 tbl' → Z.of_nat (size tbl') < u32_max →
  (create s1 tbl).1 ≠ (create s2 tbl').1 ∧
  Symbol.eqb (create s1 tbl).1 (create s2 tbl').1 = false.
Proof.
  intros Hne Hreach Hroom Hlater Hroom'.
  destruct (create_then_get s1 tbl tbl' Hreach Hroom Hlater)
    as (n1 & Hsym1 & _ & Hn1 & _ & Hinv' & _).
  destruct (create_spec s2 tbl' Hinv' (create_room s2 tbl' Hinv' Hroom'))
    as (n2 & Hsym2 & Hn2 & _ & Hpre & _).
  pose proof (prefix_lookup_Some _ _ _ _ Hn1 Hpre) as Hn1'.
  assert (n1 ≠ n2) as Hn by congruence.
  rewrite Hsym1, Hsym2. unfold Symbol.eqb. simpl. split.
  - intros [= Heq]. lia.
  - lia.
Qed.

Lemma create_distinct_later_witness :
  (create "a" empty).1 ≠ (create "c" (create "b" (create "a" empty).2).2).1 ∧
  Symbol.eqb (create "a" empty).1
             (create "c" (create "b" (create "a" empty).2).2).1 = false.
Proof.
  apply (create_distinct_later "a" "c" empty).
  - discriminate.
  - apply reachable_refl.
  - vm_compute. reflexivity.
  - apply reachable_create; [apply reachable_refl|].
    vm_compute. discriminate.
  - vm_compute. reflexivity.
Defined.

(** X12: the constructor of [SymbolTable] keeps to the caution at
    [insert]: it inserts no text twice.  Its table is one that [create]
    alone reaches, with 75 different texts, and the first text a client
    interns that is not among them gets identifier 76. *)
Theorem SymbolTable_inserts_once :
  reachable (SymbolTable.base SymbolTable.make) ∧
  NoDup (dump (SymbolTable.base SymbolTable.make)) ∧
  size (SymbolTable.base SymbolTable.make) = 75%nat ∧
  ∀ s, s ∉ dump (SymbolTable.base SymbolTable.make) →
       (create s (SymbolTable.base SymbolTable.make)).1 = Symbol.mk 76.
Proof.
  assert (reachable (SymbolTable.base SymbolTable.make)) as Hreach.
  { replace (SymbolTable.base SymbolTable.make)
      with (create_all (dump (SymbolTable.base SymbolTable.make)) empty)
      by (vm_compute; reflexivity).
    apply reachable_create_all. vm_compute. discriminate. }
  assert (size (SymbolTable.base SymbolTable.make) = 75%nat) as Hsize
    by (vm_compute; reflexivity).
  generalize dependent (SymbolTable.base SymbolTable.make).
  intros tbl Hreach Hsize.
  pose proof (reachable_inv _ Hreach) as Hinv.
  split; [done|]. split; [by apply dump_NoDup|]. split; [done|].
  intros s Hout.
  assert (symbols tbl !! s = None) as Hs.
  { rewrite dump_symbols in Hout by done.
    by destruct (symbols tbl !! s); [destruct Hout; eexists|]. }
  destruct (insert_spec s tbl Hinv Hs) as (tbl' & Hins & _).
  { rewrite Hsize. unfold u32_max, u32_modulus. lia. }
  unfold create. rewrite Hs, Hins. simpl. by rewrite Hsize.
Qed.

End SymbolTableFurther.

(** * Further properties of attribute records *)

Section BindingsExtras.
Implicit Types (b : Bindings.t) (a : Attr.t).

Lemma Bindings_eq b1 b2 :
  Bindings.capacity_ b1 = Bindings.capacity_ b2 →
  Bindings.attrs b1 = Bindings.attrs b2 → b1 = b2.
Proof. destruct b1, b2. simpl. by intros -> ->. Qed.

(** Two attributes of a record without repeated identifiers that have the
    same identifier are the same attribute. *)
Lemma attr_of_id (l : list Attr.t) a1 a2 :
  NoDup ((λ a, Symbol.id (Attr.name a)) <$> l) →
  a1 ∈ l → a2 ∈ l →
  Symbol.id (Attr.name a1) = Symbol.id (Attr.name a2) → a1 = a2.
Proof.
  intros Hdistinct Hin1 Hin2 Heq.
  apply list_elem_of_lookup in Hin1 as [i Hi].
  apply list_elem_of_lookup in Hin2 as [j Hj].
  assert (i = j) as ->; [|congruence].
  eapply (NoDup_lookup _ i j); [exact Hdistinct|..].
  - rewrite list_lookup_fmap, Hi. simpl. reflexivity.
  - rewrite list_lookup_fmap, Hj. simpl. by rewrite Heq.
Qed.

(** X13: for records without repeated identifiers, the result of [sort]
    depends only on which attributes the record holds, not on the order
    they were appended in; sorting a sorted record changes nothing. *)
Theorem sort_canonical b1 b2 :
  Bindings.capacity_ b1 = Bindings.capacity_ b2 →
  Bindings.attrs b1 ≡ₚ Bindings.attrs b2 →
  NoDup ((λ a, Symbol.id (Attr.name a)) <$> Bindings.attrs b1) →
  Bindings.sort b1 = Bindings.sort b2 ∧
  Bindings.sort (Bindings.sort b1) = Bindings.sort b1.
Proof.
  assert (∀ c1 c2,
    Bindings.capacity_ c1 = Bindings.capacity_ c2 →
    Bindings.attrs c1 ≡ₚ Bindings.attrs c2 →
    NoDup ((λ a, Symbol.id (Attr.name a)) <$> Bindings.attrs c1) →
    Bindings.sort c1 = Bindings.sort c2) as Hcanon.
  { intros c1 c2 Hcap Hperm Hdistinct.
    destruct (sort_attrs c1) as (Hperm1 & Hsorted1 & Hcap1).
    destruct (sort_attrs c2) as (Hperm2 & Hsorted2 & Hcap2).
    apply Bindings_eq; [congruence|].
    apply (StronglySorted_unique_strong Attr.le); [|done..|].
    - intros a1 a2 Hin1 Hin2 Hle1 Hle2.
      apply (attr_of_id (Bindings.attrs c1)); [done|..].
      + by rewrite <- Hperm1.
      + by rewrite Hperm, <- Hperm2.
      + unfold Attr.le, Attr.lt, Symbol.lt in *. lia.
    - by rewrite Hperm1, Hperm2. }
  intros Hcap Hperm Hdistinct. split; [by apply Hcanon|].
  destruct (sort_attrs b1) as (Hperm1 & _ & Hcap1).
  apply Hcanon; [done..|]. by rewrite Hperm1.
Qed.

Lemma sort_canonical_witness :
  let b1 := Bindings.mk 4 [Attr.mk (Symbol.mk 3) 0%nat 7;
                           Attr.mk (Symbol.mk 1) 1%nat 8;
                           Attr.mk (Symbol.mk 2) 2%nat 9] in
  let b2 := Bindings.mk 4 [Attr.mk (Symbol.mk 1) 1%nat 8;
                           Attr.mk (Symbol.mk 3) 0%nat 7;
                           Attr.mk (Symbol.mk 2) 2%nat 9] in
  Bindings.sort b1 = Bindings.sort b2 ∧
  Bindings.sort (Bindings.sort b1) = Bindings.sort b1.
Proof.
  intros b1 b2. apply (sort_canonical b1 b2).
  - reflexivity.
  - apply perm_swap.
  - apply (bool_decide_unpack _). vm_compute. exact I.
Defined.

End BindingsExtras.

(** * Further properties of the evaluator state *)

Section EvalStateInvariant.
Import EvalState.
Implicit Types (st : EvalState.t) (b : Bindings.t) (p : BindingsPtr).

Lemma consistent_make tbl : consistent (EvalState.make tbl).
Proof. repeat split; simpl; constructor. Qed.

(** The cells of the records after one record is replaced. *)
Lemma cells_assign st (addr : nat) b b' (extra : list ValuePtr) :
  heap st !! addr = Some b →
  Attr.value <$> Bindings.attrs b'
    ≡ₚ extra ++ (Attr.value <$> Bindings.attrs b) →
  cells (assign (Allocated addr) b' st) ≡ₚ extra ++ cells st.
Proof.
  intros Hb Hperm. unfold cells. simpl.
  pose proof (lookup_lt_Some _ _ _ Hb) as Hlt.
  rewrite insert_take_drop by done.
  rewrite <- (take_drop_middle (heap st) addr b Hb) at 3.
  rewrite !bind_app, !bind_cons, Hperm.
  rewrite <- !app_assoc.
  rewrite (app_assoc _ extra), (Permutation_app_comm _ extra).
  by rewrite <- app_assoc.
Qed.

(** Replacing a record by one of the same capacity that holds the old
    attributes and, at most, attributes with new cells of their own. *)
Lemma consistent_assign st (addr : nat) b b' (extra : list ValuePtr) :
  consistent st → heap st !! addr = Some b →
  Bindings.capacity_ b' = Bindings.capacity_ b →
  Bindings.size b' ≤ Bindings.capacity_ b' →
  Attr.value <$> Bindings.attrs b'
    ≡ₚ extra ++ (Attr.value <$> Bindings.attrs b) →
  NoDup extra →
  Forall (λ v, (v < valueCells st)%nat ∧ v ∉ cells st) extra →
  consistent (assign (Allocated addr) b' st).
Proof.
  intros (Hempty & Hnr & Hslots & Hfit & Hown & Hcells) Hb Hcap Hsize Hperm
    Hextra Hfresh.
  pose proof (cells_assign st addr b b' extra Hb Hperm) as Hcells'.
  pose proof (lookup_lt_Some _ _ _ Hb) as Hlt.
  split; [done|]. split; [|split; [|split; [|split]]].
  - simpl. by rewrite length_insert.
  - simpl. rewrite Hslots.
    rewrite insert_take_drop by done.
    rewrite <- (take_drop_middle (heap st) addr b Hb) at 1.
    rewrite !foldr_app. simpl. by rewrite Hcap.
  - simpl. apply Forall_insert; done.
  - rewrite Hcells'. apply NoDup_app. split; [done|]. split; [|done].
    intros v Hv. rewrite Forall_forall in Hfresh. by apply Hfresh.
  - rewrite Hcells'. apply Forall_app. split; [|done].
    eapply Forall_impl; [exact Hfresh|]. by intros v [Hv _].
Qed.

Lemma consistent_symbols st tbl :
  consistent st →
  consistent (mk tbl (emptyBindings st) (nrAttrsets st)
                 (nrAttrsInAttrsets st) (heap st) (valueCells st)).
Proof. done. Qed.

Lemma consistent_symbols_create st name :
  consistent st → consistent (symbols_create name st).2.
Proof.
  intros Hst. unfold symbols_create.
  destruct (MinimalSymbolTable.create name (symbols st)) as [sym tbl].
  by apply consistent_symbols.
Qed.

(** [push_back] of an attribute whose cell the allocator has handed out
    and no attribute refers to yet. *)
Lemma consistent_push_back st p (attr : Attr.t) :
  consistent st →
  (Attr.value attr < valueCells st)%nat → Attr.value attr ∉ cells st →
  consistent (push_back p attr st).2.
Proof.
  intros Hst Hlt Hfresh. unfold push_back.
  destruct (deref st p) as [b|] eqn:Hb; [|done].
  unfold Bindings.push_back.
  destruct (Bindings.size b <? Bindings.capacity_ b) eqn:Hroom; [|done].
  simpl. destruct p as [|addr]; simpl in Hb.
  - exfalso. destruct Hst as (Hempty & _). injection Hb as <-.
    rewrite Hempty in Hroom. vm_compute in Hroom. discriminate.
  - apply (consistent_assign st addr b _ [Attr.value attr]); try done.
    + unfold Bindings.size in *. simpl. rewrite length_app. simpl. lia.
    + simpl. rewrite fmap_app. simpl.
      by rewrite <- Permutation_cons_append.
    + apply NoDup_singleton.
    + by constructor.
Qed.

Lemma consistent_allocValue st :
  consistent st →
  consistent (allocValue st).2 ∧
  ((allocValue st).1 = Returns (valueCells st)) ∧
  (valueCells st < valueCells (allocValue st).2)%nat ∧
  valueCells st ∉ cells (allocValue st).2.
Proof.
  intros (Hempty & Hnr & Hslots & Hfit & Hown & Hcells). simpl.
  split; [|split; [done|split; [lia|]]].
  - repeat split; try done. simpl.
    eapply Forall_impl; [exact Hcells|]. simpl. lia.
  - intros Hin. rewrite Forall_forall in Hcells.
    specialize (Hcells _ Hin). lia.
Qed.

Lemma consistent_sort st p :
  consistent st → consistent (EvalState.sort p st).2.
Proof.
  intros Hst. unfold EvalState.sort.
  destruct (deref st p) as [b|] eqn:Hb; [|done].
  destruct (sort_attrs b) as (Hperm & _ & Hcap).
  simpl. destruct p as [|addr]; simpl in Hb.
  - destruct Hst as (Hempty & Hrest). injection Hb as <-.
    rewrite Hempty. done.
  - apply (consistent_assign st addr b _ []); try done.
    + rewrite Hcap. unfold Bindings.size. rewrite Hperm.
      destruct Hst as (_ & _ & _ & Hfit & _).
      rewrite Forall_lookup in Hfit. by apply (Hfit addr).
    + simpl. by rewrite Hperm.
    + constructor.
Qed.

Lemma consistent_allocBindings st size_t_max capacity :
  consistent st → 0 ≤ capacity →
  consistent (allocBindings size_t_max capacity st).2.
Proof.
  intros (Hempty & Hnr & Hslots & Hfit & Hown & Hcells) Hcap.
  unfold allocBindings.
  destruct (capacity =? 0); [done|].
  destruct (capacity >? size_t_max); [done|].
  unfold consistent, cells in *. simpl.
  split; [done|]. split; [|split; [|split; [|split]]].
  - rewrite length_app. simpl. lia.
  - rewrite foldr_app. simpl. rewrite Hslots.
    generalize (heap st). intros l. induction l as [|b l IH]; simpl; lia.
  - apply Forall_app. split; [done|]. constructor; [|done].
    unfold Bindings.size. simpl. lia.
  - rewrite bind_app. simpl. by rewrite !app_nil_r.
  - rewrite bind_app. simpl. by rewrite !app_nil_r.
Qed.

Lemma consistent_alloc st bb name pos :
  consistent st → consistent (BindingsBuilder.alloc bb name pos st).2.
Proof.
  intros Hst. unfold BindingsBuilder.alloc, mbind, M_bind.
  destruct (consistent_allocValue st Hst) as (Hst1 & Hv & Hlt & Hfresh).
  destruct (allocValue st) as [o st1]. simpl in *. subst o.
  pose proof (consistent_push_back st1 (BindingsBuilder.bindings bb)
                (Attr.mk name (valueCells st) pos) Hst1 Hlt Hfresh) as Hst2.
  by destruct (push_back (BindingsBuilder.bindings bb)
                 (Attr.mk name (valueCells st) pos) st1) as [[| |] st2].
Qed.

Lemma consistent_alloc_name st bb name pos :
  consistent st → consistent (BindingsBuilder.alloc_name bb name pos st).2.
Proof.
  intros Hst. unfold BindingsBuilder.alloc_name, mbind, M_bind.
  pose proof (consistent_symbols_create st name Hst) as Hst1.
  unfold symbols_create in *.
  destruct (MinimalSymbolTable.create name (symbols st)) as [sym tbl].
  simpl in *. by apply consistent_alloc.
Qed.

Lemma consistent_allocAttr st vAttrs name :
  consistent st → consistent (allocAttr vAttrs name st).2.
Proof.
  intros Hst. destruct vAttrs as [|attrs|primOp].
  - unfold allocAttr, mbind, M_bind.
    by destruct (consistent_allocValue st Hst) as (Hst1 & _).
  - by apply (consistent_alloc st (BindingsBuilder.mk attrs) name noPos).
  - unfold allocAttr, mbind, M_bind.
    by destruct (consistent_allocValue st Hst) as (Hst1 & _).
Qed.

Lemma consistent_finish st bb :
  consistent st → consistent (BindingsBuilder.finish bb st).2.
Proof.
  intros Hst. unfold BindingsBuilder.finish, mbind, M_bind.
  pose proof (consistent_sort st (BindingsBuilder.bindings bb) Hst) as Hst1.
  by destruct (EvalState.sort (BindingsBuilder.bindings bb) st)
       as [[| |] st1].
Qed.

End EvalStateInvariant.

Section EvalStateExtras.
Import EvalState.
Implicit Types (st : EvalState.t) (b : Bindings.t) (p q : BindingsPtr).

(** X14: every function of [attr-set.cc] leaves the evaluator state
    consistent, also when it throws or aborts: the shared empty record
    stays empty, the two counters stay the number and the total capacity
    of the allocated records, no record outgrows its capacity, and no two
    attributes ever share a value cell. *)
Theorem consistent_kept st :
  consistent st →
  (∀ size_t_max capacity, 0 ≤ capacity →
     consistent (allocBindings size_t_max capacity st).2) ∧
  (∀ bb name pos, consistent (BindingsBuilder.alloc bb name pos st).2) ∧
  (∀ bb name pos, consistent (BindingsBuilder.alloc_name bb name pos st).2) ∧
  (∀ vAttrs name, consistent (allocAttr vAttrs name st).2) ∧
  (∀ vAttrs name, consistent (allocAttr_name vAttrs name st).2) ∧
  (∀ bb symbol op args doc fun_ contents,
     consistent (BindingsBuilder.allocOp bb symbol op args doc fun_
                   contents st).2) ∧
  (∀ p, consistent (EvalState.sort p st).2) ∧
  (∀ bb, consistent (Value_mkAttrs bb st).2).
Proof.
  intros Hst.
  split; [intros; by apply consistent_allocBindings|].
  split; [intros; by apply consistent_alloc|].
  split; [intros; by apply consistent_alloc_name|].
  split; [intros; by apply consistent_allocAttr|].
  split; [|split; [|split]].
  - intros vAttrs name. unfold allocAttr_name, mbind, M_bind.
    pose proof (consistent_symbols_create st name Hst) as Hst1.
    unfold symbols_create in *.
    destruct (MinimalSymbolTable.create name (symbols st)) as [sym tbl].
    simpl in *. by apply consistent_allocAttr.
  - intros bb symbol op args doc fun_ contents.
    unfold BindingsBuilder.allocOp, mbind, M_bind.
    pose proof (consistent_alloc st bb symbol noPos Hst) as Hst1.
    by destruct (BindingsBuilder.alloc bb symbol noPos st) as [[| |] st1].
  - intros p. by apply consistent_sort.
  - intros bb. unfold Value_mkAttrs, mbind, M_bind.
    pose proof (consistent_finish st bb Hst) as Hst1.
    by destruct (BindingsBuilder.finish bb st) as [[| |] st1].
Qed.

Lemma consistent_kept_witness :
  let st := EvalState.make MinimalSymbolTable.empty in
  (∀ size_t_max capacity, 0 ≤ capacity →
     consistent (allocBindings size_t_max capacity st).2) ∧
  (∀ bb name pos, consistent (BindingsBuilder.alloc bb name pos st).2) ∧
  (∀ bb name pos, consistent (BindingsBuilder.alloc_name bb name pos st).2) ∧
  (∀ vAttrs name, consistent (allocAttr vAttrs name st).2) ∧
  (∀ vAttrs name, consistent (allocAttr_name vAttrs name st).2) ∧
  (∀ bb symbol op args doc fun_ contents,
     consistent (BindingsBuilder.allocOp bb symbol op args doc fun_
                   contents st).2) ∧
  (∀ p, consistent (EvalState.sort p st).2) ∧
  (∀ bb, consistent (Value_mkAttrs bb st).2).
Proof.
  intros st. apply (consistent_kept st). apply consistent_make.
Defined.

(** Reading through an address after a record was written through one. *)
Lemma deref_assign st p b b' :
  deref st p = Some b →
  deref (assign p b' st) p = Some b' ∧
  ∀ q, q ≠ p → deref (assign p b' st) q = deref st q.
Proof.
  intros Hb. destruct p as [|addr]; simpl in *.
  - split; [done|]. by intros [|addr'].
  - split; [apply list_lookup_insert_eq; by eapply lookup_lt_Some|].
    intros [|addr'] Hne; [done|]. simpl.
    apply list_lookup_insert_ne. congruence.
Qed.

(** [alloc] on a record with room, and on a full one. *)
Lemma alloc_run st p b name pos :
  deref st p = Some b →
  BindingsBuilder.alloc (BindingsBuilder.mk p) name pos st
  = if Bindings.size b <? Bindings.capacity_ b
    then (Returns (valueCells st),
          assign p (Bindings.mk (Bindings.capacity_ b)
                      (Bindings.attrs b
                       ++ [Attr.mk name (valueCells st) pos]))
                 (allocValue st).2)
    else (Aborts, (allocValue st).2).
Proof.
  intros Hb.
  unfold BindingsBuilder.alloc, mbind, M_bind, push_back. simpl.
  assert (deref (allocValue st).2 p = Some b) as Hb1.
  { by destruct p. }
  simpl in Hb1. rewrite Hb1. unfold Bindings.push_back.
  by destruct (Bindings.size b <? Bindings.capacity_ b).
Qed.

(** X15: [BindingsBuilder::alloc] on a record with room returns a cell the
    allocator has not handed out before and appends one attribute with the
    given name and position, behind the attributes the record has; no
    other record, counter or symbol changes.  On a full record it aborts,
    after it has taken the value cell. *)
Theorem alloc_appends st bb b name pos :
  deref st (BindingsBuilder.bindings bb) = Some b →
  (Bindings.size b < Bindings.capacity_ b →
   ∃ st', BindingsBuilder.alloc bb name pos st
          = (Returns (valueCells st), st') ∧
     deref st' (BindingsBuilder.bindings bb)
     = Some (Bindings.mk (Bindings.capacity_ b)
               (Bindings.attrs b ++ [Attr.mk name (valueCells st) pos])) ∧
     (∀ q, q ≠ BindingsBuilder.bindings bb → deref st' q = deref st q) ∧
     valueCells st' = S (valueCells st) ∧
     symbols st' = symbols st ∧
     nrAttrsets st' = nrAttrsets st ∧
     nrAttrsInAttrsets st' = nrAttrsInAttrsets st) ∧
  (Bindings.capacity_ b ≤ Bindings.size b →
   ∃ st', BindingsBuilder.alloc bb name pos st = (Aborts, st') ∧
     valueCells st' = S (valueCells st) ∧
     ∀ q, deref st' q = deref st q).
Proof.
  intros Hb. destruct bb as [p]. simpl in *.
  rewrite (alloc_run st p b name pos Hb). split.
  - intros Hroom.
    replace (Bindings.size b <? Bindings.capacity_ b) with true by lia.
    eexists. split; [reflexivity|].
    assert (deref (allocValue st).2 p = Some b) as Hb1 by (by destruct p).
    destruct (deref_assign (allocValue st).2 p b
                (Bindings.mk (Bindings.capacity_ b)
                   (Bindings.attrs b ++ [Attr.mk name (valueCells st) pos]))
                Hb1) as [Hnew Hframe].
    split; [done|]. split.
    { intros q Hq. rewrite Hframe by done. by destruct q. }
    by destruct p.
  - intros Hfull.
    replace (Bindings.size b <? Bindings.capacity_ b) with false by lia.
    eexists. split; [reflexivity|]. split; [done|]. by intros [|addr].
Qed.

Lemma alloc_appends_witness :
  let st := (allocBindings 9 1 (EvalState.make MinimalSymbolTable.empty)).2 in
  let bb := BindingsBuilder.mk (Allocated 0) in
  (∃ st', BindingsBuilder.alloc bb (Symbol.mk 5) 3 st
          = (Returns (valueCells st), st') ∧
     deref st' (BindingsBuilder.bindings bb)
     = Some (Bindings.mk 1 ([] ++ [Attr.mk (Symbol.mk 5) (valueCells st) 3])) ∧
     (∀ q, q ≠ BindingsBuilder.bindings bb → deref st' q = deref st q) ∧
     valueCells st' = S (valueCells st) ∧
     symbols st' = symbols st ∧
     nrAttrsets st' = nrAttrsets st ∧
     nrAttrsInAttrsets st' = nrAttrsInAttrsets st) ∧
  (∃ st', BindingsBuilder.alloc bb (Symbol.mk 6) 3
            (BindingsBuilder.alloc bb (Symbol.mk 5) 3 st).2 = (Aborts, st')).
Proof.
  intros st bb. split.
  - apply (alloc_appends st bb (Bindings.make 1) (Symbol.mk 5) 3).
    + reflexivity.
    + vm_compute. reflexivity.
  - destruct (alloc_appends (BindingsBuilder.alloc bb (Symbol.mk 5) 3 st).2 bb
                (Bindings.mk 1 [Attr.mk (Symbol.mk 5) 0%nat 3])
                (Symbol.mk 6) 3) as [_ Hfull].
    + reflexivity.
    + destruct Hfull as (st' & Hrun & _).
      * vm_compute. discriminate.
      * by exists st'.
Defined.

(** X16: nothing can be added to the shared empty record.  A builder
    opened with capacity 0 holds it; every [alloc] and [allocAttr] on it
    aborts, and finishing the builder returns it and leaves the evaluator
    as it was. *)
Theorem empty_record_stays_empty st :
  consistent st →
  deref st EmptyBindings = Some (Bindings.make 0) ∧
  (∀ size_t_max,
     BindingsBuilder.open size_t_max 0 st
     = (Returns (BindingsBuilder.mk EmptyBindings), st)) ∧
  (∀ name pos,
     (BindingsBuilder.alloc (BindingsBuilder.mk EmptyBindings) name pos st).1
     = Aborts) ∧
  (∀ name pos,
     (BindingsBuilder.alloc_name (BindingsBuilder.mk EmptyBindings)
        name pos st).1 = Aborts) ∧
  (∀ name, (allocAttr (Value.VAttrs EmptyBindings) name st).1 = Aborts) ∧
  (∀ name, (allocAttr_name (Value.VAttrs EmptyBindings) name st).1 = Aborts) ∧
  BindingsBuilder.finish (BindingsBuilder.mk EmptyBindings) st
  = (Returns EmptyBindings, st) ∧
  Value_mkAttrs (BindingsBuilder.mk EmptyBindings) st
  = (Returns (Value.VAttrs EmptyBindings), st).
Proof.
  intros Hst. pose proof Hst as (Hempty & _).
  assert (∀ st1, emptyBindings st1 = Bindings.make 0 → ∀ name pos,
    (BindingsBuilder.alloc (BindingsBuilder.mk EmptyBindings) name pos st1).1
    = Aborts) as Halloc.
  { intros st1 Hempty1 name pos.
    rewrite (alloc_run st1 EmptyBindings (Bindings.make 0) name pos)
      by (simpl; by rewrite Hempty1).
    done. }
  assert (∀ name st1, st1 = (symbols_create name st).2 →
          emptyBindings st1 = Bindings.make 0) as Hcreate.
  { intros name st1 ->. unfold symbols_create.
    by destruct (MinimalSymbolTable.create name (symbols st)). }
  assert (BindingsBuilder.finish (BindingsBuilder.mk EmptyBindings) st
          = (Returns EmptyBindings, st)) as Hfinish.
  { unfold BindingsBuilder.finish, mbind, M_bind, EvalState.sort. simpl.
    rewrite Hempty. destruct st. simpl in *. by subst. }
  split; [simpl; by rewrite Hempty|]. split; [done|].
  split; [by apply Halloc|]. split; [|split; [|split; [|split]]].
  - intros name pos. unfold BindingsBuilder.alloc_name, mbind, M_bind.
    pose proof (Hcreate name _ eq_refl) as Hempty1.
    unfold symbols_create in *.
    destruct (MinimalSymbolTable.create name (symbols st)) as [sym tbl].
    by apply Halloc.
  - intros name.
    apply (Halloc st Hempty name noPos).
  - intros name. unfold allocAttr_name, mbind, M_bind.
    pose proof (Hcreate name _ eq_refl) as Hempty1.
    unfold symbols_create in *.
    destruct (MinimalSymbolTable.create name (symbols st)) as [sym tbl].
    by apply (Halloc _ Hempty1 sym noPos).
  - done.
  - unfold Value_mkAttrs, mbind, M_bind. by rewrite Hfinish.
Qed.

Lemma empty_record_stays_empty_witness :
  let st := EvalState.make MinimalSymbolTable.empty in
  (BindingsBuilder.alloc_name (BindingsBuilder.mk EmptyBindings)
     "x" noPos st).1 = Aborts ∧
  BindingsBuilder.finish (BindingsBuilder.mk EmptyBindings) st
  = (Returns EmptyBindings, st).
Proof.
  intros st. split.
  - apply (empty_record_stays_empty st). apply consistent_make.
  - apply (empty_record_stays_empty st). apply consistent_make.
Defined.

End EvalStateExtras.

Section BuildExtras.
Import EvalState.
Implicit Types (st : EvalState.t) (b : Bindings.t) (p q : BindingsPtr).

(** [alloc(std::string_view, pos)] is [alloc(Symbol, pos)] after the
    [create] of the name. *)
Lemma alloc_name_run st bb name pos :
  BindingsBuilder.alloc_name bb name pos st
  = BindingsBuilder.alloc bb
      (MinimalSymbolTable.create name (symbols st)).1 pos
      (EvalState.mk (MinimalSymbolTable.create name (symbols st)).2
         (emptyBindings st) (nrAttrsets st) (nrAttrsInAttrsets st)
         (heap st) (valueCells st)).
Proof.
  unfold BindingsBuilder.alloc_name, mbind, M_bind, symbols_create.
  by destruct (MinimalSymbolTable.create name (symbols st)).
Qed.

(** A slot for each name of a list, on a record with room for all of
    them: the record gains one attribute for each name, in the order of the
    list, and each new attribute is named by a symbol that resolves to its
    name. *)
Lemma alloc_names_spec names : ∀ st (addr : nat) b pos,
  heap st !! addr = Some b →
  Bindings.size b + Z.of_nat (length names) ≤ Bindings.capacity_ b →
  MinimalSymbolTable.inv (symbols st) →
  Z.of_nat (MinimalSymbolTable.size (symbols st) + length names) ≤ u32_max →
  ∃ st' new,
    Build.alloc_names (BindingsBuilder.mk (Allocated addr)) names pos st
    = (Returns tt, st') ∧
    heap st' = <[addr := Bindings.mk (Bindings.capacity_ b)
                           (Bindings.attrs b ++ new)]> (heap st) ∧
    symbols st' = MinimalSymbolTable.create_all names (symbols st) ∧
    MinimalSymbolTable.inv (symbols st') ∧
    MinimalSymbolTable.reachable_from (symbols st) (symbols st') ∧
    Forall2 (λ attr s,
               MinimalSymbolTable.text (symbols st') (Attr.name attr) = Some s ∧
               Attr.pos attr = pos) new names.
Proof.
  induction names as [|s names IH]; intros st addr b pos Hb Hcap Hinv Hroom.
  - exists st, []. simpl. split; [done|]. split.
    { rewrite app_nil_r. destruct b. simpl. by rewrite list_insert_id. }
    split; [done|]. split; [done|].
    split; [apply MinimalSymbolTable.reachable_refl|constructor].
  - simpl in Hcap, Hroom. simpl.
    unfold mbind at 1. unfold M_bind. rewrite alloc_name_run.
    pose proof (size_create_le s (symbols st)) as Hle1.
    assert (Z.of_nat (MinimalSymbolTable.size
                        (MinimalSymbolTable.create s (symbols st)).2)
            ≤ u32_max) as Hfits by lia.
    destruct (create_spec s (symbols st) Hinv Hfits)
      as (n & Hsym & Hn & Hinv1 & _).
    destruct (MinimalSymbolTable.create s (symbols st)) as [sym tbl1]
      eqn:Hcreate.
    simpl in *.
    set (st1 := EvalState.mk tbl1 (emptyBindings st) (nrAttrsets st)
                  (nrAttrsInAttrsets st) (heap st) (valueCells st)).
    rewrite (alloc_run st1 (Allocated addr) b sym pos Hb).
    replace (Bindings.size b <? Bindings.capacity_ b) with true by lia.
    set (b2 := Bindings.mk (Bindings.capacity_ b)
                 (Bindings.attrs b ++ [Attr.mk sym (valueCells st1) pos])).
    set (st2 := assign (Allocated addr) b2 (allocValue st1).2).
    pose proof (lookup_lt_Some _ _ _ Hb) as Hlt.
    destruct (IH st2 addr b2 pos) as (st' & new & Hrun & Hheap & Hsyms
                                      & Hinv' & Hreach & Hnew).
    { simpl. by apply list_lookup_insert_eq. }
    { unfold Bindings.size in *. simpl. rewrite length_app. simpl. lia. }
    { done. }
    { simpl. lia. }
    exists st', (Attr.mk sym (valueCells st1) pos :: new).
    split; [done|]. split.
    { rewrite Hheap. simpl. rewrite list_insert_insert_eq.
      by rewrite <- app_assoc. }
    split.
    { by rewrite Hsyms. }
    split; [done|]. simpl in Hreach. split.
    { eapply reachable_from_trans; [|exact Hreach].
      replace tbl1 with (MinimalSymbolTable.create s (symbols st)).2
        by (by rewrite Hcreate).
      apply MinimalSymbolTable.reachable_create;
        [apply MinimalSymbolTable.reachable_refl|].
      by rewrite Hcreate. }
    constructor; [|done]. simpl. split; [|done]. subst sym.
    destruct (later_entry tbl1 (symbols st') n s Hinv1 Hreach Hn)
      as (_ & Hn' & _).
    destruct (get_entry (symbols st') n s Hinv' Hn') as [Hget Hstr].
    unfold MinimalSymbolTable.text. by rewrite Hget.
Qed.

End BuildExtras.

Section BuildRoundTrip.
Import EvalState.
Implicit Types (st : EvalState.t) (b : Bindings.t) (p q : BindingsPtr).

(** [mkAttrs] on a builder whose record is at hand. *)
Lemma mkAttrs_run st p b :
  deref st p = Some b →
  Value_mkAttrs (BindingsBuilder.mk p) st
  = (Returns (Value.VAttrs p), assign p (Bindings.sort b) st).
Proof.
  intros Hb.
  unfold Value_mkAttrs, BindingsBuilder.finish, mbind, M_bind, EvalState.sort.
  simpl. by rewrite Hb.
Qed.

(** Opening a builder with a capacity from 1 up to the maximum. *)
Lemma open_run st size_t_max capacity :
  0 < capacity ≤ size_t_max →
  BindingsBuilder.open size_t_max capacity st
  = (Returns (BindingsBuilder.mk (Allocated (length (heap st)))),
     EvalState.mk (symbols st) (emptyBindings st) (nrAttrsets st + 1)
       (nrAttrsInAttrsets st + capacity)
       (heap st ++ [Bindings.make capacity]) (valueCells st)).
Proof.
  intros Hcap. unfold BindingsBuilder.open, allocBindings.
  replace (capacity =? 0) with false by lia.
  replace (capacity >? size_t_max) with false by lia.
  reflexivity.
Qed.

(** Attributes named by symbols that resolve to distinct texts have
    distinct identifiers. *)
Lemma distinct_names_distinct_ids tbl (new : list Attr.t)
    (names : list string) :
  Forall2 (λ attr s, MinimalSymbolTable.text tbl (Attr.name attr) = Some s)
          new names →
  NoDup names →
  NoDup ((λ a, Symbol.id (Attr.name a)) <$> new).
Proof.
  intros Hnew Hdistinct. apply NoDup_alt. intros i j x Hi Hj.
  rewrite list_lookup_fmap in Hi, Hj.
  destruct (new !! i) as [a1|] eqn:Ha1; [|done].
  destruct (new !! j) as [a2|] eqn:Ha2; [|done].
  simpl in *. injection Hi as Hi. injection Hj as Hj.
  destruct (Forall2_lookup_l _ _ _ _ _ Hnew Ha1) as (s1 & Hs1 & Ht1).
  destruct (Forall2_lookup_l _ _ _ _ _ Hnew Ha2) as (s2 & Hs2 & Ht2).
  assert (Attr.name a1 = Attr.name a2) as Heq.
  { destruct (Attr.name a1), (Attr.name a2). simpl in *. congruence. }
  rewrite Heq in Ht1.
  assert (s1 = s2) as -> by congruence.
  by eapply (NoDup_lookup names i j).
Qed.

(** X17: the builder round trip.  Opening a builder for a list of names,
    declaring a slot for each name and making a record value of it gives a
    record with one attribute for each name, whose names resolve to the
    names of the list, in ascending order of identifier; the order is
    strict when the names are distinct.  The symbol table has interned the
    names in turn. *)
Theorem build_sorted_record size_t_max names st :
  consistent st → MinimalSymbolTable.reachable (symbols st) →
  Z.of_nat (MinimalSymbolTable.size (symbols st) + length names) ≤ u32_max →
  Z.of_nat (length names) ≤ size_t_max →
  ∃ p st' b,
    Build.run size_t_max names st = (Returns (Value.VAttrs p), st') ∧
    deref st' p = Some b ∧
    Bindings.size b = Z.of_nat (length names) ∧
    symbols st' = MinimalSymbolTable.create_all names (symbols st) ∧
    (λ a, MinimalSymbolTable.text (symbols st') (Attr.name a))
      <$> Bindings.attrs b ≡ₚ Some <$> names ∧
    (∀ (i j : nat) a1 a2, (i < j)%nat →
       Bindings.attrs b !! i = Some a1 → Bindings.attrs b !! j = Some a2 →
       Symbol.id (Attr.name a1) ≤ Symbol.id (Attr.name a2)) ∧
    (NoDup names →
     ∀ (i j : nat) a1 a2, (i < j)%nat →
       Bindings.attrs b !! i = Some a1 → Bindings.attrs b !! j = Some a2 →
       Symbol.id (Attr.name a1) < Symbol.id (Attr.name a2)).
Proof.
  intros Hst Hreach Hroom Hmax.
  pose proof (reachable_inv _ Hreach) as Hinv.
  destruct (decide (names = [])) as [->|Hnames].
  - exists EmptyBindings, st, (Bindings.make 0).
    pose proof Hst as (Hempty & _).
    split.
    { unfold Build.run, mbind, M_bind. simpl.
      rewrite (mkAttrs_run st EmptyBindings (Bindings.make 0))
        by (simpl; by rewrite Hempty).
      simpl. destruct st. simpl in *. by subst. }
    split; [simpl; by rewrite Hempty|].
    split; [done|]. split; [done|]. split; [done|].
    split; intros; simplify_eq/=.
  - assert (0 < Z.of_nat (length names)) as Hpos.
    { destruct names; [done|simpl; lia]. }
    unfold Build.run. unfold mbind at 1. unfold M_bind.
    rewrite (open_run st size_t_max _ (conj Hpos Hmax)).
    set (n := Z.of_nat (length names)) in *.
    set (addr := length (heap st)).
    set (st1 := EvalState.mk _ _ _ _ _ _).
    destruct (alloc_names_spec names st1 addr (Bindings.make n) noPos)
      as (st2 & new & Hrun & Hheap & Hsyms & Hinv2 & _ & Hnew).
    { simpl. by rewrite list_lookup_middle. }
    { unfold Bindings.size. simpl. lia. }
    { done. }
    { done. }
    unfold mbind, M_bind. rewrite Hrun.
    assert (deref st2 (Allocated addr) = Some (Bindings.mk n new)) as Hb2.
    { simpl. rewrite Hheap. simpl.
      apply list_lookup_insert_eq. rewrite length_app. simpl. lia. }
    rewrite (mkAttrs_run st2 (Allocated addr) _ Hb2).
    destruct (deref_assign st2 (Allocated addr) _
                (Bindings.sort (Bindings.mk n new)) Hb2) as [Hb' _].
    destruct (sort_attrs (Bindings.mk n new)) as (Hperm & Hsorted & _).
    simpl in Hperm.
    assert (∀ (i j : nat) a1 a2, (i < j)%nat →
       Bindings.attrs (Bindings.sort (Bindings.mk n new)) !! i = Some a1 →
       Bindings.attrs (Bindings.sort (Bindings.mk n new)) !! j = Some a2 →
       Symbol.id (Attr.name a1) ≤ Symbol.id (Attr.name a2)) as Hle.
    { intros i j a1 a2 Hij Hi Hj. apply Attr_le_id.
      by eapply StronglySorted_lookup. }
    eexists _, _, _. split; [reflexivity|]. split; [exact Hb'|].
    split; [|split; [|split; [|split]]].
    + unfold Bindings.size. rewrite Hperm.
      by rewrite (Forall2_length _ _ _ Hnew).
    + done.
    + rewrite Hperm. simpl.
      clear -Hnew. induction Hnew as [|a s new names [Ht _] _ IH]; [done|].
      simpl. rewrite Ht. by apply perm_skip.
    + done.
    + intros Hdistinct i j a1 a2 Hij Hi Hj.
      pose proof (Hle i j a1 a2 Hij Hi Hj) as Hle12.
      assert (NoDup ((λ a, Symbol.id (Attr.name a)) <$>
                Bindings.attrs (Bindings.sort (Bindings.mk n new)))) as Hids.
      { rewrite Hperm.
        apply (distinct_names_distinct_ids (symbols st2) new names);
          [|done].
        eapply Forall2_impl; [exact Hnew|]. by intros a s [Ht _]. }
      assert (Symbol.id (Attr.name a1) ≠ Symbol.id (Attr.name a2)); [|lia].
      intros Heq. assert (i = j); [|lia].
      eapply (NoDup_lookup _ i j); [exact Hids|..].
      * rewrite list_lookup_fmap, Hi. simpl. reflexivity.
      * rewrite list_lookup_fmap, Hj. simpl. by rewrite Heq.
Qed.

Lemma build_sorted_record_witness :
  let names := ["c"; "a"; "b"]%string in
  let st := (symbols_create "a" (EvalState.make MinimalSymbolTable.empty)).2 in
  ∃ p st' b,
    Build.run 10 names st = (Returns (Value.VAttrs p), st') ∧
    deref st' p = Some b ∧
    Bindings.size b = Z.of_nat (length names) ∧
    symbols st' = MinimalSymbolTable.create_all names (symbols st) ∧
    (λ a, MinimalSymbolTable.text (symbols st') (Attr.name a))
      <$> Bindings.attrs b ≡ₚ Some <$> names ∧
    (∀ (i j : nat) a1 a2, (i < j)%nat →
       Bindings.attrs b !! i = Some a1 → Bindings.attrs b !! j = Some a2 →
       Symbol.id (Attr.name a1) ≤ Symbol.id (Attr.name a2)) ∧
    (NoDup names →
     ∀ (i j : nat) a1 a2, (i < j)%nat →
       Bindings.attrs b !! i = Some a1 → Bindings.attrs b !! j = Some a2 →
       Symbol.id (Attr.name a1) < Symbol.id (Attr.name a2)).
Proof.
  intros names st. apply (build_sorted_record 10 names st).
  - apply consistent_make.
  - change (MinimalSymbolTable.reachable
              (MinimalSymbolTable.create "a" MinimalSymbolTable.empty).2).
    apply MinimalSymbolTable.reachable_create;
      [apply MinimalSymbolTable.reachable_refl|].
    vm_compute. discriminate.
  - vm_compute. discriminate.
  - vm_compute. discriminate.
Defined.

Example build_example :
  let st := (symbols_create "a" (EvalState.make MinimalSymbolTable.empty)).2 in
  let r := Build.run 10 ["c"; "a"; "b"] st in
  r.1 = Returns (Value.VAttrs (Allocated 0)) ∧
  Scenario.entries r.2 <$> deref r.2 (Allocated 0)
  = Some [(1, Some "a"); (2, Some "c"); (3, Some "b")]%string.
Proof. vm_compute. split; reflexivity. Qed.

End BuildRoundTrip.

Section DirectAppendExtras.
Import EvalState.
Implicit Types (st : EvalState.t) (b : Bindings.t) (p q : BindingsPtr).

(** X18: [allocAttr] by name interns the name and appends to the record of
    the value one attribute at [noPos] with a new value cell, behind the
    attributes the record has and whatever its identifier: the record is
    not sorted again.  The symbol of the new attribute resolves to the
    name. *)
Theorem allocAttr_appends st p b name :
  deref st p = Some b →
  Bindings.size b < Bindings.capacity_ b →
  MinimalSymbolTable.reachable (symbols st) →
  Z.of_nat (MinimalSymbolTable.size (symbols st)) < u32_max →
  ∃ st',
    allocAttr_name (Value.VAttrs p) name st = (Returns (valueCells st), st') ∧
    symbols st' = (MinimalSymbolTable.create name (symbols st)).2 ∧
    deref st' p
    = Some (Bindings.mk (Bindings.capacity_ b)
              (Bindings.attrs b
               ++ [Attr.mk (MinimalSymbolTable.create name (symbols st)).1
                     (valueCells st) noPos])) ∧
    MinimalSymbolTable.text (symbols st')
      (MinimalSymbolTable.create name (symbols st)).1 = Some name ∧
    (∀ q, q ≠ p → deref st' q = deref st q).
Proof.
  intros Hb Hroom Hreach Hfits.
  destruct (create_then_get name (symbols st) _ Hreach Hfits
              (MinimalSymbolTable.reachable_refl _))
    as (n & _ & _ & _ & _ & _ & Hget & Hstr).
  unfold allocAttr_name, mbind, M_bind, symbols_create.
  destruct (MinimalSymbolTable.create name (symbols st)) as [sym tbl1].
  simpl in Hget, Hstr.
  set (st1 := EvalState.mk tbl1 (emptyBindings st) (nrAttrsets st)
                (nrAttrsInAttrsets st) (heap st) (valueCells st)).
  assert (deref st1 p = Some b) as Hb1 by (by destruct p).
  change (allocAttr (Value.VAttrs p) sym st1)
    with (BindingsBuilder.alloc (BindingsBuilder.mk p) sym noPos st1).
  rewrite (alloc_run st1 p b sym noPos Hb1).
  replace (Bindings.size b <? Bindings.capacity_ b) with true by lia.
  assert (deref (allocValue st1).2 p = Some b) as Hb2 by (by destruct p).
  destruct (deref_assign (allocValue st1).2 p b
              (Bindings.mk (Bindings.capacity_ b)
                 (Bindings.attrs b ++ [Attr.mk sym (valueCells st1) noPos]))
              Hb2) as [Hnew Hframe].
  eexists. split; [reflexivity|]. split; [by destruct p|].
  split; [exact Hnew|]. split.
  - assert (symbols (assign p
              (Bindings.mk (Bindings.capacity_ b)
                 (Bindings.attrs b ++ [Attr.mk sym (valueCells st1) noPos]))
              (allocValue st1).2) = tbl1) as -> by (by destruct p).
    unfold MinimalSymbolTable.text. simpl. by rewrite Hget.
  - intros q Hq. rewrite Hframe by done. by destruct q.
Qed.

Lemma allocAttr_appends_witness :
  let st := (allocBindings 9 2 (EvalState.make MinimalSymbolTable.empty)).2 in
  ∃ st',
    allocAttr_name (Value.VAttrs (Allocated 0)) "x" st
    = (Returns (valueCells st), st') ∧
    symbols st' = (MinimalSymbolTable.create "x" (symbols st)).2 ∧
    deref st' (Allocated 0)
    = Some (Bindings.mk 2
              ([] ++ [Attr.mk (MinimalSymbolTable.create "x" (symbols st)).1
                        (valueCells st) noPos])) ∧
    MinimalSymbolTable.text (symbols st')
      (MinimalSymbolTable.create "x" (symbols st)).1 = Some "x"%string ∧
    (∀ q, q ≠ Allocated 0 → deref st' q = deref st q).
Proof.
  intros st.
  apply (allocAttr_appends st (Allocated 0) (Bindings.make 2) "x").
  - reflexivity.
  - vm_compute. reflexivity.
  - apply MinimalSymbolTable.reachable_refl.
  - vm_compute. reflexivity.
Defined.

(** After [allocAttr] a sorted record need not be sorted any more. *)
Example allocAttr_unsorted_example :
  let prog :=
    _ ← symbols_create "a";
    bb ← BindingsBuilder.open 9 2;
    _ ← BindingsBuilder.alloc_name bb "b" noPos;
    v ← Value_mkAttrs bb;
    _ ← allocAttr_name v "a";
    mret v in
  let st := (prog (EvalState.make MinimalSymbolTable.empty)).2 in
  Scenario.entries st <$> deref st (Allocated 0)
  = Some [(2, Some "b"); (1, Some "a")]%string.
Proof. vm_compute. reflexivity. Qed.

(** X19: [allocOp] on a builder with room declares one slot named by the
    symbol at [noPos] and writes to its cell an operator primitive whose
    arity is the number of its arguments; no cell written before is
    touched, as long as the written cells are cells the allocator handed
    out. *)
Theorem allocOp_registers st bb b symbol op args doc fun_
    (contents : gmap nat Value.t) :
  deref st (BindingsBuilder.bindings bb) = Some b →
  Bindings.size b < Bindings.capacity_ b →
  (∀ v, is_Some (contents !! v) → (v < valueCells st)%nat) →
  ∃ st' contents',
    BindingsBuilder.allocOp bb symbol op args doc fun_ contents st
    = (Returns contents', st') ∧
    deref st' (BindingsBuilder.bindings bb)
    = Some (Bindings.mk (Bindings.capacity_ b)
              (Bindings.attrs b ++ [Attr.mk symbol (valueCells st) noPos])) ∧
    contents' !! valueCells st
    = Some (Value.VPrimOp
              (PrimOp.mk fun_ (Z.of_nat (length args)) op args doc true)) ∧
    (∀ v, is_Some (contents !! v) → contents' !! v = contents !! v) ∧
    (∀ v, is_Some (contents' !! v) → (v < valueCells st')%nat).
Proof.
  intros Hb Hroom Hwritten. destruct bb as [p]. simpl in *.
  unfold BindingsBuilder.allocOp, mbind, M_bind.
  rewrite (alloc_run st p b symbol noPos Hb).
  replace (Bindings.size b <? Bindings.capacity_ b) with true by lia.
  assert (deref (allocValue st).2 p = Some b) as Hb1 by (by destruct p).
  destruct (deref_assign (allocValue st).2 p b
              (Bindings.mk (Bindings.capacity_ b)
                 (Bindings.attrs b ++ [Attr.mk symbol (valueCells st) noPos]))
              Hb1) as [Hnew _].
  eexists _, _. split; [reflexivity|]. split; [exact Hnew|].
  split; [apply lookup_insert_eq|]. split.
  - intros v Hv. apply lookup_insert_ne.
    specialize (Hwritten v Hv). lia.
  - intros v Hv.
    assert (valueCells (assign p
              (Bindings.mk (Bindings.capacity_ b)
                 (Bindings.attrs b ++ [Attr.mk symbol (valueCells st) noPos]))
              (allocValue st).2) = S (valueCells st)) as -> by (by destruct p).
    destruct (decide (v = valueCells st)) as [->|Hne]; [lia|].
    rewrite lookup_insert_ne in Hv by done.
    specialize (Hwritten v Hv). lia.
Qed.

Lemma allocOp_registers_witness :
  let st := (allocBindings 9 2 (EvalState.make MinimalSymbolTable.empty)).2 in
  let bb := BindingsBuilder.mk (Allocated 0) in
  ∃ st' contents',
    BindingsBuilder.allocOp bb (Symbol.mk 7) "__add" ["a"; "b"] "sum" 0%nat ∅ st
    = (Returns contents', st') ∧
    deref st' (BindingsBuilder.bindings bb)
    = Some (Bindings.mk 2
              ([] ++ [Attr.mk (Symbol.mk 7) (valueCells st) noPos])) ∧
    contents' !! valueCells st
    = Some (Value.VPrimOp
              (PrimOp.mk 0%nat (Z.of_nat (length ["a"; "b"]%string))
                 "__add" ["a"; "b"] "sum" true)) ∧
    (∀ v, is_Some ((∅ : gmap nat Value.t) !! v) →
          contents' !! v = (∅ : gmap nat Value.t) !! v) ∧
    (∀ v, is_Some (contents' !! v) → (v < valueCells st')%nat).
Proof.
  intros st bb.
  apply (allocOp_registers st bb (Bindings.make 2) (Symbol.mk 7)
           "__add" ["a"; "b"]%string "sum" 0%nat ∅).
  - reflexivity.
  - vm_compute. reflexivity.
  - intros v [x Hx]. by rewrite lookup_empty in Hx.
Defined.

End DirectAppendExtras.
